(** * signac: the document search engine (signac/core/search_engine.py)

    A shallow embedding of [_flatten], [_traverse_tree], [_valid_filter] and
    the class [DocumentSearchEngine], followed by the properties of the
    specification that were checked against it.

    Conventions of the embedding.
    - Python objects that reach the engine are JSON-like: [None], booleans,
      integers and strings are the scalars ([atom]); lists and mappings are
      the containers ([value]).  Floats and tuples used as document content
      are outside the model.
    - A mapping is an association list in iteration order.  A Python dict
      holds every key once, so [for k in t: ... t[k]] visits exactly the
      items of the list; keys are strings.
    - A generator is modelled by the list of everything it yields, or by the
      exception it raises on the way ([res]).
    - A Python [set] is a [gset] of scalars modulo Python's [==], under
      which [True == 1] and [False == 0]: members are stored in the
      canonical form [set_key].
    - The hash function is a parameter, as in the source; the builtin
      [hash] on tuples is the section variable [py_hash]. *)

From stdpp Require Import base option list strings gmap.
From Stdlib Require Import ZArith.

Set Warnings "-clear-no-such-hyp".

Open Scope string_scope.
Open Scope list_scope.
Open Scope Z_scope.

(** ** Python values *)

Inductive atom : Type :=
| ANone
| ABool (b : bool)
| AInt (z : Z)
| AStr (s : string).

Unset Elimination Schemes.
Inductive value : Type :=
| VAtom (a : atom)
| VList (l : list value)
| VDict (m : list (string * value)).
Set Elimination Schemes.

Abbreviation VNone := (VAtom ANone).
Abbreviation VTrue := (VAtom (ABool true)).
Abbreviation VFalse := (VAtom (ABool false)).
Abbreviation VInt z := (VAtom (AInt z)).
Abbreviation VStr s := (VAtom (AStr s)).

#[global] Instance atom_eq_dec : EqDecision atom.
Proof. solve_decision. Defined.

Definition atom_enc (a : atom) : unit + bool + Z + string :=
  match a with
  | ANone => inl (inl (inl ()))
  | ABool b => inl (inl (inr b))
  | AInt z => inl (inr z)
  | AStr s => inr s
  end.

Definition atom_dec (x : unit + bool + Z + string) : atom :=
  match x with
  | inl (inl (inl _)) => ANone
  | inl (inl (inr b)) => ABool b
  | inl (inr z) => AInt z
  | inr s => AStr s
  end.

Lemma atom_dec_enc (a : atom) : atom_dec (atom_enc a) = a.
Proof. by destruct a. Qed.

#[global] Instance atom_countable : Countable atom :=
  inj_countable' atom_enc atom_dec atom_dec_enc.

(** The exceptions the module can raise. *)
Inductive exn : Type :=
| KeyError
| TypeError
| AttributeError
| IndexError
| ValueError      (* InvalidFilterError *)
| RuntimeError.   (* UnsupportedFilterError *)

Inductive res (A : Type) : Type :=
| Ok (a : A)
| Err (e : exn).
Arguments Ok {A} a.
Arguments Err {A} e.

Definition rbind {A B : Type} (r : res A) (f : A → res B) : res B :=
  match r with
  | Ok a => f a
  | Err e => Err e
  end.

Notation "'let*' x := r 'in' k" := (rbind r (λ x, k))
  (at level 10, x pattern, r at level 100, k at level 200).

(** [bool(x)] *)
Definition truthy_atom (a : atom) : bool :=
  match a with
  | ANone => false
  | ABool b => b
  | AInt z => negb (Z.eqb z 0)
  | AStr s => negb (String.eqb s "")
  end.

Definition truthy (v : value) : bool :=
  match v with
  | VAtom a => truthy_atom a
  | VList l => negb (bool_decide (l = []))
  | VDict m => negb (bool_decide (m = []))
  end.

(** [x is None], [x is True], [x is False] *)
Definition is_None (v : value) : bool :=
  match v with VAtom ANone => true | _ => false end.
Definition is_True (v : value) : bool :=
  match v with VAtom (ABool true) => true | _ => false end.
Definition is_False (v : value) : bool :=
  match v with VAtom (ABool false) => true | _ => false end.

(** [d.get(k)] on a dict given as an association list *)
Fixpoint dict_get (m : list (string * value)) (k : string) : option value :=
  match m with
  | [] => None
  | (k', v) :: m' => if decide (k' = k) then Some v else dict_get m' k
  end.

(** [x.get(k, dflt)]: only mappings have the method. *)
Definition py_get (x : value) (k : string) (dflt : value) : res value :=
  match x with
  | VDict m => Ok (default dflt (dict_get m k))
  | _ => Err AttributeError
  end.

(** [x[k]] with a string key *)
Definition py_getitem (x : value) (k : string) : res value :=
  match x with
  | VDict m => match dict_get m k with Some v => Ok v | None => Err KeyError end
  | _ => Err TypeError
  end.

(** What [set.add(x)] and [hash(x)] accept. *)
Definition hashable (x : value) : res atom :=
  match x with
  | VAtom a => Ok a
  | _ => Err TypeError
  end.

(** The representative of a scalar in a Python set. *)
Definition set_key (a : atom) : atom :=
  match a with
  | ABool b => AInt (if b then 1 else 0)
  | _ => a
  end.

(** ** Branches

    [_traverse_tree] yields either the bare leaf or the nested pair
    [(k, i)]. *)
Inductive branch : Type :=
| BLeaf (a : atom)
| BPair (k : string) (b : branch).

(** The elements [_flatten] yields for the second component of a pair. *)
Fixpoint flat (b : branch) : list atom :=
  match b with
  | BLeaf a => [a]
  | BPair k b' => AStr k :: flat b'
  end.

Definition chars (s : string) : list atom :=
  map (λ c, AStr (String c EmptyString)) (String.list_ascii_of_string s).

(** [tuple(_flatten(branch))].  A pair is iterated component by component;
    a bare string is iterated character by character; no other scalar is
    iterable. *)
Definition _flatten (b : branch) : res (list atom) :=
  match b with
  | BPair k b' => Ok (AStr k :: flat b')
  | BLeaf (AStr s) => Ok (chars s)
  | BLeaf _ => Err TypeError
  end.

(** ** [_traverse_tree] *)
Fixpoint _traverse_tree (t : value) (include : value) {struct t}
  : res (list branch) :=
  if is_False include then Ok []
  else
    match t with
    | VList l =>
        (fix elems (l : list value) : res (list branch) :=
           match l with
           | [] => Ok []
           | i :: l' =>
               let* bs := _traverse_tree i include in
               let* rest := elems l' in
               Ok (bs ++ rest)
           end) l
    | VDict m =>
        (fix items (m : list (string * value)) : res (list branch) :=
           match m with
           | [] => Ok []
           | (k, v) :: m' =>
               if is_None include || is_True include then
                 let* bs := _traverse_tree v VNone in
                 let* rest := items m' in
                 Ok (map (BPair k) bs ++ rest)
               else
                 let* g := py_get include k VFalse in
                 if negb (truthy g) then items m'
                 else
                   let* inc := py_get include k VNone in
                   let* bs := _traverse_tree v inc in
                   let* rest := items m' in
                   Ok (map (BPair k) bs ++ rest)
           end) m
    | VAtom a => Ok [BLeaf a]
    end.

(** ** [_valid_filter] *)
Fixpoint _valid_filter (f : value) : bool :=
  match f with
  | VDict m =>
      (fix values (m : list (string * value)) : bool :=
         match m with
         | [] => true
         | (_, v) :: m' => _valid_filter v && values m'
         end) m
  | VList _ => false
  | VAtom _ => true
  end.

(** ** Loops, slices and lengths *)

(** [for x in l: s = body(s, x)], stopping at the first exception. *)
Fixpoint for_each {A S : Type} (body : S → A → res S) (l : list A) (s : S)
  : res S :=
  match l with
  | [] => Ok s
  | x :: l' => let* s' := body s x in for_each body l' s'
  end.

(** [f[:-i]].  A negative stop counts from the end, but [-0] is [0]: the
    slice [f[:-0]] is the empty tuple. *)
Definition slice_to_neg {A : Type} (f : list A) (i : nat) : list A :=
  match i with
  | O => []
  | _ => take (length f - i)%nat f
  end.

(** [f[-1]] *)
Definition py_last {A : Type} (f : list A) : res A :=
  match last f with
  | Some x => Ok x
  | None => Err IndexError
  end.

(** [len(x)] *)
Definition py_len (x : value) : res nat :=
  match x with
  | VDict m => Ok (length m)
  | VList l => Ok (length l)
  | VAtom (AStr s) => Ok (String.length s)
  | VAtom _ => Err TypeError
  end.

(** ** The class [DocumentSearchEngine] *)

Record engine : Type := Engine {
  _hash : list atom → Z;
  ids : gset atom;
  index : gmap Z (gset atom);
  included : option (gmap Z atom);
}.

(** [index[h].add(x)] on a [defaultdict(set)]: a missing entry is created. *)
Definition dd_add (index : gmap Z (gset atom)) (h : Z) (x : atom)
  : gmap Z (gset atom) :=
  <[h := {[set_key x]} ∪ default ∅ (index !! h)]> index.

(** [index.get(h, set())]: nothing is created. *)
Definition dd_get (index : gmap Z (gset atom)) (h : Z) : gset atom :=
  default ∅ (index !! h).

Section Engine.

(** The builtin [hash], restricted to the tuples the engine hashes. *)
Variable py_hash : list atom → Z.

(** *** [_build_index] *)

(** Body of the loop over the branches of the include specification:
    [included[self._hash(f[:-1])] = f[-1]]. *)
Definition included_add (hash : list atom → Z) (included : gmap Z atom)
    (b : branch) : res (gmap Z atom) :=
  let* f := _flatten b in
  let* d := py_last f in
  Ok (<[hash (slice_to_neg f 1) := d]> included).

(** Body of the loop over the branches of one document:
    [index[self._hash(f)].add(doc['_id'])]. *)
Definition index_add (hash : list atom → Z) (id : atom)
    (index : gmap Z (gset atom)) (b : branch) : res (gmap Z (gset atom)) :=
  let* f := _flatten b in
  Ok (dd_add index (hash f) id).

(** Body of the loop over the documents. *)
Definition index_doc (hash : list atom → Z) (include : value)
    (st : gset atom * gmap Z (gset atom)) (doc : value)
  : res (gset atom * gmap Z (gset atom)) :=
  let* x := py_getitem doc "_id" in
  let* id := hashable x in
  let ids := {[set_key id]} ∪ st.1 in
  let* bs := _traverse_tree doc include in
  let* index := for_each (index_add hash id) bs st.2 in
  Ok (ids, index).

Definition _build_index (hash : list atom → Z) (docs : option (list value))
    (include : value)
  : res (gset atom * gmap Z (gset atom) * option (gmap Z atom)) :=
  let index := ∅ in
  let ids := ∅ in
  let* included :=
    if is_None include then Ok None
    else
      let* bs := _traverse_tree include VNone in
      let* inc := for_each (included_add hash) bs ∅ in
      Ok (Some inc) in
  let* st :=
    match docs with
    | None => Ok (ids, index)
    | Some docs => for_each (index_doc hash include) docs (ids, index)
    end in
  Ok (st.1, st.2, included).

(** [hash if hash_ is None else hash_] *)
Definition default_hash (hash_ : option (list atom → Z)) : list atom → Z :=
  match hash_ with
  | None => py_hash
  | Some h => h
  end.

(** *** [__init__]: the object exists only if [_build_index] returned. *)
Definition __init__ (docs : option (list value)) (include : value)
    (hash_ : option (list atom → Z)) : res engine :=
  let hash := default_hash hash_ in
  let* r := _build_index hash docs include in
  Ok (Engine hash r.1.1 r.1.2 r.2).

End Engine.

(** *** Methods

    A method runs on [self] and returns its outcome together with [self]
    afterwards.  The query methods only read attributes ([attr]). *)
Definition M (A : Type) : Type := engine → res A * engine.

Definition ret {A : Type} (a : A) : M A := λ self, (Ok a, self).
Definition raise {A : Type} (e : exn) : M A := λ self, (Err e, self).
Definition lift {A : Type} (r : res A) : M A := λ self, (r, self).
Definition attr {A : Type} (field : engine → A) : M A :=
  λ self, (Ok (field self), self).
Definition bind {A B : Type} (m : M A) (k : A → M B) : M B :=
  λ self,
    match m self with
    | (Ok a, self') => k a self'
    | (Err e, self') => (Err e, self')
    end.

Notation "'let!' x := m 'in' k" := (bind m (λ x, k))
  (at level 10, x pattern, m at level 100, k at level 200).

(** [included.get(h, False)] *)
Definition included_get (inc : gmap Z atom) (h : Z) : atom :=
  default (ABool false) (inc !! h).

(** The inner loop of [_filter_supported]:
    [if self.included.get(h, False): break] for [h = self._hash(f[:-i])]. *)
Definition prefix_supported (hash : list atom → Z) (inc : gmap Z atom)
    (f : list atom) (i : nat) : bool :=
  truthy_atom (included_get inc (hash (slice_to_neg f i))).

(** [for i in range(len(f))] left by [break] (true) or exhausted (false). *)
Definition branch_supported (hash : list atom → Z) (inc : gmap Z atom)
    (f : list atom) : bool :=
  existsb (prefix_supported hash inc f) (seq 0 (length f)).

(** The outer loop: [return False] at the first branch whose inner loop is
    exhausted, [return True] when the branches are. *)
Fixpoint branches_supported (hash : list atom → Z) (inc : gmap Z atom)
    (bs : list branch) : res bool :=
  match bs with
  | [] => Ok true
  | b :: bs' =>
      let* f := _flatten b in
      if branch_supported hash inc f then branches_supported hash inc bs'
      else Ok false
  end.

Definition _filter_supported (filter : value) : M bool :=
  let! included := attr included in
  match included with
  | None => ret true
  | Some inc =>
      let! hash := attr _hash in
      let! bs := lift (_traverse_tree filter VNone) in
      lift (branches_supported hash inc bs)
  end.

(** [check_filter] returns [True] for [None] and falls off its end
    (returning [None]) for a filter that is valid and supported. *)
Definition check_filter (filter : value) : M value :=
  if is_None filter then ret VTrue
  else if negb (_valid_filter filter) then raise ValueError
  else
    let! supported := _filter_supported filter in
    if negb supported then raise RuntimeError
    else ret VNone.

(** The loop of [find] over the branches of the filter.  [result] starts as
    [None]; [index.get(h, set())] is never [None], so the test [m is None]
    of the source never succeeds. *)
Fixpoint find_loop (hash : list atom → Z) (index : gmap Z (gset atom))
    (bs : list branch) (result : option (gset atom))
  : res (option (gset atom)) :=
  match bs with
  | [] => Ok result
  | b :: bs' =>
      let* f := _flatten b in
      let m := dd_get index (hash f) in
      match result with
      | None => find_loop hash index bs' (Some m)
      | Some r => find_loop hash index bs' (Some (r ∩ m))
      end
  end.

(** [find], consumed to its end: the set of the ids it yields. *)
Definition find (filter : value) : M (gset atom) :=
  let! _ := check_filter filter in
  let! empty :=
    if is_None filter then ret true
    else let! n := lift (py_len filter) in ret (Nat.eqb n 0) in
  if empty then attr ids
  else
    let! hash := attr _hash in
    let! index := attr index in
    let! bs := lift (_traverse_tree filter VNone) in
    let! result := lift (find_loop hash index bs None) in
    match result with
    | None => ret ∅
    | Some r => ret r
    end.

Definition __len__ : M nat := attr (λ self, size (ids self)).

(** Outcome and final state of a method call. *)
Definition outcome {A : Type} (m : M A) (self : engine) : res A := (m self).1.
Definition after {A : Type} (m : M A) (self : engine) : engine := (m self).2.

(** ** Helpers for stating the properties *)

(** A collision-free hash function, used to exhibit concrete engines. *)
Definition encode_hash (f : list atom) : Z := Z.pos (encode f).

(** The filter that asks for exactly one branch: [(k1, (k2, leaf))] is
    [{k1: {k2: leaf}}]. *)
Fixpoint branch_filter (b : branch) : value :=
  match b with
  | BLeaf a => VAtom a
  | BPair k b' => VDict [(k, branch_filter b')]
  end.

Definition scenario_docs : list value :=
  [ VDict [("_id", VInt 1); ("a", VInt 1); ("b", VDict [("c", VInt 2)])];
    VDict [("_id", VInt 2); ("a", VInt 1); ("b", VDict [("c", VInt 3)])] ].

(** [d[k] = v]: a key already present keeps its position and takes the new
    value, a new key goes last. *)
Fixpoint dict_set (m : list (string * value)) (k : string) (v : value)
  : list (string * value) :=
  match m with
  | [] => [(k, v)]
  | (k', v') :: m' =>
      if decide (k' = k) then (k', v) :: m' else (k', v') :: dict_set m' k v
  end.

(** [{**F1, **F2}]: the items of [F1] in order, then those of [F2]. *)
Definition dict_merge (m1 m2 : list (string * value)) : list (string * value) :=
  fold_left (λ m kv, dict_set m kv.1 kv.2) m2 m1.

Definition keys (m : list (string * value)) : list string := map fst m.

(** The tuples hashed when the scenario is indexed, and the tuple of the
    query that matches nothing. *)
Definition scenario_tuples : list (list atom) :=
  [ [AStr "_id"; AInt 1]; [AStr "a"; AInt 1]; [AStr "b"; AStr "c"; AInt 2];
    [AStr "_id"; AInt 2]; [AStr "b"; AStr "c"; AInt 3];
    [AStr "b"; AStr "c"; AInt 9] ].

(** The value of a result known to be [Ok]. *)
Definition get_ok {A : Type} (d : A) (r : res A) : A :=
  match r with
  | Ok a => a
  | Err _ => d
  end.

(** The engine built from the documents of the scenario, with no include
    specification. *)
Definition scenario_engine : engine :=
  get_ok (Engine encode_hash ∅ ∅ None)
    (__init__ encode_hash (Some scenario_docs) VNone None).

(** The include specification [{"a": True, "b": False}], the table
    [included] it leads to, and an engine built with it. *)
Definition include_ab : value := VDict [("a", VTrue); ("b", VFalse)].

Definition included_ab (hash : list atom → Z) : gmap Z atom :=
  <[hash [AStr "b"] := ABool false]> (<[hash [AStr "a"] := ABool true]> ∅).

Definition engine_ab : engine :=
  get_ok (Engine encode_hash ∅ ∅ None)
    (__init__ encode_hash (Some scenario_docs) include_ab None).

(** The include specification of the docstring of [check_filter],
    [{'a': True, 'b': {'c': False, 'd': True}}], the table [included] it
    leads to, and an engine built with it. *)
Definition include_doc : value :=
  VDict [("a", VTrue); ("b", VDict [("c", VFalse); ("d", VTrue)])].

Definition included_doc (hash : list atom → Z) : gmap Z atom :=
  <[hash [AStr "b"; AStr "d"] := ABool true]>
    (<[hash [AStr "b"; AStr "c"] := ABool false]>
       (<[hash [AStr "a"] := ABool true]> ∅)).

Definition engine_doc : engine :=
  get_ok (Engine encode_hash ∅ ∅ None)
    (__init__ encode_hash (Some scenario_docs) include_doc None).

(** The keys of a branch and its leaf: [f[:-1]] and [f[-1]] of its
    tuple. *)
Fixpoint path (b : branch) : list atom :=
  match b with
  | BLeaf _ => []
  | BPair k b' => AStr k :: path b'
  end.

Fixpoint leaf (b : branch) : atom :=
  match b with
  | BLeaf a => a
  | BPair _ b' => leaf b'
  end.

(** The directive lets the whole branch through: it is [True], or a mapping
    whose entry for the first key is truthy and lets the rest through. *)
Inductive covered : branch → value → Prop :=
| covered_all (b : branch) : covered b VTrue
| covered_key (k : string) (b : branch) (m : list (string * value))
    (d : value) :
    dict_get m k = Some d → truthy d = true → covered b d →
    covered (BPair k b) (VDict m).

(** An include specification with boolean leaves in which, as in a Python
    dict, no mapping holds a key twice. *)
Inductive include_dict : value → Prop :=
| include_dict_leaf (b : bool) : include_dict (VAtom (ABool b))
| include_dict_node (m : list (string * value)) :
    NoDup (keys m) → (∀ k v, (k, v) ∈ m → include_dict v) →
    include_dict (VDict m).

(** Two runs that both return, or both raise the same exception. *)
Definition same_outcome {A B : Type} (r1 : res A) (r2 : res B) : Prop :=
  match r1, r2 with
  | Ok _, Ok _ => True
  | Err x, Err y => x = y
  | _, _ => False
  end.

(** The documents of [docs], none when [docs is None]. *)
Definition docs_list (docs : option (list value)) : list value :=
  default [] docs.

(** The document [doc] has the scalar [a] as its id. *)
Definition has_id (doc : value) (a : atom) : Prop :=
  py_getitem doc "_id" = Ok (VAtom a).

(** Some branch of [doc], pruned by [include], hashes to [h]. *)
Definition has_hash (hash : list atom → Z) (include doc : value) (h : Z) : Prop :=
  ∃ bs b f, _traverse_tree doc include = Ok bs ∧ b ∈ bs ∧
            _flatten b = Ok f ∧ hash f = h.

(** A method that leaves [self] as it found it. *)
Definition readonly {A : Type} (m : M A) : Prop := ∀ self, (m self).2 = self.

(** An include specification as the class documents it: a tree of mappings
    whose leaves are booleans. *)
Inductive include_tree : value → Prop :=
| include_leaf (b : bool) : include_tree (VAtom (ABool b))
| include_node (m : list (string * value)) :
    (∀ k v, (k, v) ∈ m → include_tree v) → include_tree (VDict m).

(** A mapping with a list as a value, at any depth. *)
Inductive has_list_value : list (string * value) → Prop :=
| list_here (m : list (string * value)) (k : string) (l : list value) :
    (k, VList l) ∈ m → has_list_value m
| list_below (m : list (string * value)) (k : string)
    (m' : list (string * value)) :
    (k, VDict m') ∈ m → has_list_value m' → has_list_value m.

(** * Properties *)

(** ** Induction over values *)
Section value_induction.
Variable P : value → Prop.
Hypothesis Hatom : ∀ a, P (VAtom a).
Hypothesis Hlist : ∀ l, Forall P l → P (VList l).
Hypothesis Hdict : ∀ m, Forall (λ kv, P kv.2) m → P (VDict m).

Fixpoint value_ind (t : value) : P t :=
  match t with
  | VAtom a => Hatom a
  | VList l =>
      Hlist l ((fix go (l : list value) : Forall P l :=
                  match l with
                  | [] => Forall_nil_2 P
                  | x :: l' => Forall_cons_2 P x l' (value_ind x) (go l')
                  end) l)
  | VDict m =>
      Hdict m ((fix go (m : list (string * value))
                  : Forall (λ kv, P kv.2) m :=
                  match m with
                  | [] => Forall_nil_2 _
                  | kv :: m' =>
                      Forall_cons_2 (λ kv, P kv.2) kv m'
                        (value_ind kv.2) (go m')
                  end) m)
  end.
End value_induction.

(** ** The result monad *)

Lemma rbind_Ok {A B : Type} (r : res A) (k : A → res B) (b : B) :
  rbind r k = Ok b ↔ ∃ a, r = Ok a ∧ k a = Ok b.
Proof.
  destruct r as [a|e]; simpl.
  - split; [eauto | by intros (a' & [= <-] & ?)].
  - split; [done | by intros (? & ? & ?)].
Qed.

(** ** Equations of [_traverse_tree] *)

Lemma traverse_False (t : value) : _traverse_tree t VFalse = Ok [].
Proof. by destruct t. Qed.

Lemma traverse_atom (a : atom) (inc : value) :
  is_False inc = false → _traverse_tree (VAtom a) inc = Ok [BLeaf a].
Proof. intros H; simpl. by rewrite H. Qed.

Lemma traverse_list_nil (inc : value) : _traverse_tree (VList []) inc = Ok [].
Proof. simpl. by destruct (is_False inc). Qed.

Lemma traverse_list_cons (i : value) (l : list value) (inc : value) :
  _traverse_tree (VList (i :: l)) inc =
  let* bs := _traverse_tree i inc in
  let* rest := _traverse_tree (VList l) inc in
  Ok (bs ++ rest).
Proof.
  simpl. destruct (is_False inc) eqn:E; [|done].
  destruct inc as [[| [] | |]| |]; try discriminate E.
  by rewrite traverse_False.
Qed.

Lemma traverse_dict_nil (inc : value) : _traverse_tree (VDict []) inc = Ok [].
Proof. simpl. by destruct (is_False inc). Qed.

Lemma traverse_dict_cons (k : string) (v : value) (m : list (string * value))
    (inc : value) :
  is_False inc = false →
  _traverse_tree (VDict ((k, v) :: m)) inc =
  if is_None inc || is_True inc then
    let* bs := _traverse_tree v VNone in
    let* rest := _traverse_tree (VDict m) inc in
    Ok (map (BPair k) bs ++ rest)
  else
    let* g := py_get inc k VFalse in
    if negb (truthy g) then _traverse_tree (VDict m) inc
    else
      let* d := py_get inc k VNone in
      let* bs := _traverse_tree v d in
      let* rest := _traverse_tree (VDict m) inc in
      Ok (map (BPair k) bs ++ rest).
Proof. intros H. simpl. by rewrite H. Qed.

Lemma traverse_None_cons (k : string) (v : value) (m : list (string * value)) :
  _traverse_tree (VDict ((k, v) :: m)) VNone =
  let* bs := _traverse_tree v VNone in
  let* rest := _traverse_tree (VDict m) VNone in
  Ok (map (BPair k) bs ++ rest).
Proof. by rewrite traverse_dict_cons. Qed.

(** With a mapping as directive, a key is visited when its entry is truthy,
    and then with that entry as directive. *)
Lemma traverse_dict_dict_cons (k : string) (v : value)
    (m inc : list (string * value)) :
  _traverse_tree (VDict ((k, v) :: m)) (VDict inc) =
  match dict_get inc k with
  | Some d =>
      if truthy d then
        let* bs := _traverse_tree v d in
        let* rest := _traverse_tree (VDict m) (VDict inc) in
        Ok (map (BPair k) bs ++ rest)
      else _traverse_tree (VDict m) (VDict inc)
  | None => _traverse_tree (VDict m) (VDict inc)
  end.
Proof.
  rewrite traverse_dict_cons by done. simpl.
  destruct (dict_get inc k) as [d|]; simpl; [|done].
  by destruct (truthy d).
Qed.

(** Without a directive the traversal never raises. *)
Lemma traverse_None_total (t : value) : ∃ bs, _traverse_tree t VNone = Ok bs.
Proof.
  induction t as [a|l IH|m IH] using value_ind.
  - by eexists.
  - induction IH as [|i l [bs Hi] _ [rest Hl]].
    + by eexists.
    + exists (bs ++ rest). by rewrite traverse_list_cons, Hi, Hl.
  - induction IH as [|[k v] m [bs Hv] _ [rest Hm]].
    + by eexists.
    + exists (map (BPair k) bs ++ rest).
      simpl in Hv. by rewrite traverse_None_cons, Hv, Hm.
Qed.

(** [True] and [None] are the same directive. *)
Lemma traverse_True (t : value) : _traverse_tree t VTrue = _traverse_tree t VNone.
Proof.
  induction t as [a|l IH|m IH] using value_ind.
  - done.
  - induction IH as [|i l Hi _ Hl]; [done|].
    by rewrite !traverse_list_cons, Hi, Hl.
  - induction IH as [|[k v] m _ _ Hm]; [done|].
    rewrite !traverse_dict_cons by done.
    cbn [is_None is_True orb]. by rewrite Hm.
Qed.

(** The branches of a mapping are pairs. *)
Lemma traverse_dict_pairs (m : list (string * value)) (inc : value)
    (bs : list branch) :
  _traverse_tree (VDict m) inc = Ok bs →
  Forall (λ b, ∃ k b', b = BPair k b') bs.
Proof.
  destruct (is_False inc) eqn:E.
  { destruct inc as [[| [] | |]| |]; try discriminate E.
    rewrite traverse_False. intros [= <-]. constructor. }
  revert bs. induction m as [|[k v] m IH]; intros bs.
  - rewrite traverse_dict_nil. intros [= <-]. constructor.
  - rewrite traverse_dict_cons by done.
    assert (∀ d bs, (let* bs0 := _traverse_tree v d in
                      let* rest := _traverse_tree (VDict m) inc in
                      Ok (map (BPair k) bs0 ++ rest)) = Ok bs →
                     Forall (λ b, ∃ k b', b = BPair k b') bs) as Hstep.
    { intros d bs' H. apply rbind_Ok in H as (bs0 & _ & H).
      apply rbind_Ok in H as (rest0 & Hm & [= <-]).
      apply Forall_app. split; [|by apply IH].
      apply Forall_forall. intros b (b' & -> & _)%list_elem_of_fmap. eauto. }
    destruct (is_None inc || is_True inc); [by apply Hstep|].
    intros H. apply rbind_Ok in H as (g & Hg & H).
    destruct (negb (truthy g)); [by apply IH|].
    apply rbind_Ok in H as (d & Hd & H). by eapply Hstep.
Qed.

(** Membership in the unrestricted traversal of a mapping. *)
Lemma traverse_None_elem (m : list (string * value)) (bs : list branch)
    (k : string) (rest : branch) :
  _traverse_tree (VDict m) VNone = Ok bs →
  BPair k rest ∈ bs ↔
  ∃ v bs', (k, v) ∈ m ∧ _traverse_tree v VNone = Ok bs' ∧ rest ∈ bs'.
Proof.
  revert bs. induction m as [|[k0 v0] m IH]; intros bs.
  - rewrite traverse_dict_nil. intros [= <-]. split.
    + by intros ?%elem_of_nil.
    + by intros (? & ? & ?%elem_of_nil & _).
  - rewrite traverse_None_cons. intros H.
    apply rbind_Ok in H as (bs0 & Hv0 & H).
    apply rbind_Ok in H as (rest0 & Hm & [= <-]).
    rewrite elem_of_app, list_elem_of_fmap, (IH _ Hm). split.
    + intros [(b & [= -> ->] & Hb)|(v & bs' & Hin & Hv & Hr)].
      * exists v0, bs0. by rewrite elem_of_cons; eauto.
      * exists v, bs'. by rewrite elem_of_cons; eauto.
    + intros (v & bs' & Hin & Hv & Hr).
      apply elem_of_cons in Hin as [[= -> ->]|Hin].
      * left. exists rest. split; [done|]. congruence.
      * right. eauto.
Qed.

(** Membership in the traversal of a mapping under a mapping directive. *)
Lemma traverse_dict_elem (m inc : list (string * value)) (bs : list branch)
    (k : string) (rest : branch) :
  _traverse_tree (VDict m) (VDict inc) = Ok bs →
  BPair k rest ∈ bs ↔
  ∃ v d bs', (k, v) ∈ m ∧ dict_get inc k = Some d ∧ truthy d = true ∧
             _traverse_tree v d = Ok bs' ∧ rest ∈ bs'.
Proof.
  revert bs. induction m as [|[k0 v0] m IH]; intros bs.
  - rewrite traverse_dict_nil. intros [= <-]. split.
    + by intros ?%elem_of_nil.
    + by intros (? & ? & ? & ?%elem_of_nil & _).
  - rewrite traverse_dict_dict_cons.
    assert (_traverse_tree (VDict m) (VDict inc) = Ok bs →
            (dict_get inc k0 = None ∨
             ∃ d, dict_get inc k0 = Some d ∧ truthy d = false) →
            BPair k rest ∈ bs ↔
            ∃ v d bs', (k, v) ∈ (k0, v0) :: m ∧ dict_get inc k = Some d ∧
                       truthy d = true ∧ _traverse_tree v d = Ok bs' ∧
                       rest ∈ bs') as Hskip.
    { intros H Hk0. rewrite (IH _ H). split.
      - intros (v & d & bs' & Hin & ?). exists v, d, bs'.
        by rewrite elem_of_cons; eauto.
      - intros (v & d & bs' & Hin & Hd & Ht & Hr).
        apply elem_of_cons in Hin as [[= -> ->]|Hin]; [|by eauto 10].
        destruct Hk0 as [Hn|(d' & Hd' & Ht')]; congruence. }
    destruct (dict_get inc k0) as [d0|] eqn:Hd0; [|by eauto].
    destruct (truthy d0) eqn:Ht0; [|by eauto].
    intros H. apply rbind_Ok in H as (bs0 & Hv0 & H).
    apply rbind_Ok in H as (rest0 & Hm & [= <-]).
    rewrite elem_of_app, list_elem_of_fmap, (IH _ Hm). split.
    + intros [(b & [= -> ->] & Hb)|(v & d & bs' & Hin & Hr)].
      * exists v0, d0, bs0. by rewrite elem_of_cons; eauto 10.
      * exists v, d, bs'. by rewrite elem_of_cons; eauto.
    + intros (v & d & bs' & Hin & Hd & Ht & Hv & Hr).
      apply elem_of_cons in Hin as [[= -> ->]|Hin]; [|by eauto 10].
      left. exists rest. split; [done|]. congruence.
Qed.

(** ** The index after construction *)

Lemma dd_get_dd_add (index : gmap Z (gset atom)) (h0 h : Z) (x : atom) :
  dd_get (dd_add index h0 x) h =
  if decide (h0 = h) then {[set_key x]} ∪ dd_get index h else dd_get index h.
Proof.
  unfold dd_get, dd_add. case_decide as E.
  - subst. by rewrite lookup_insert_eq.
  - by rewrite lookup_insert_ne.
Qed.

Lemma dd_get_empty (h : Z) : dd_get ∅ h = ∅.
Proof. unfold dd_get. by rewrite lookup_empty. Qed.

Lemma flatten_pair (k : string) (b : branch) :
  _flatten (BPair k b) = Ok (AStr k :: flat b).
Proof. done. Qed.

Lemma flat_length (b : branch) : (1 ≤ length (flat b))%nat.
Proof. destruct b; simpl; lia. Qed.

Section Index.
Variable hash : list atom → Z.
Variable include : value.

Lemma index_add_elem (id : atom) (bs : list branch)
    (index index' : gmap Z (gset atom)) (h : Z) (x : atom) :
  for_each (index_add hash id) bs index = Ok index' →
  x ∈ dd_get index' h ↔
  x ∈ dd_get index h ∨
  (x = set_key id ∧ ∃ b f, b ∈ bs ∧ _flatten b = Ok f ∧ hash f = h).
Proof.
  revert index. induction bs as [|b bs IH]; intros index; simpl.
  - intros [= <-]. split; [by left|].
    by intros [?|(_ & ? & ? & ?%elem_of_nil & _)].
  - intros H. apply rbind_Ok in H as (index1 & H1 & H).
    unfold index_add in H1. apply rbind_Ok in H1 as (f & Hf & [= <-]).
    rewrite (IH _ H), dd_get_dd_add. split.
    + intros [Hx|(-> & b' & f' & Hb' & Hf' & Hh)].
      * case_decide as E; [|by left].
        apply elem_of_union in Hx as [->%elem_of_singleton|Hx]; [|by left].
        right. split; [done|]. exists b, f. by rewrite elem_of_cons; eauto.
      * right. split; [done|]. exists b', f'. by rewrite elem_of_cons; eauto.
    + intros [Hx|(-> & b' & f' & Hb' & Hf' & Hh)].
      * left. case_decide; set_solver.
      * apply elem_of_cons in Hb' as [->|Hb'].
        -- left. rewrite Hf in Hf'. injection Hf' as <-.
           rewrite decide_True by done. set_solver.
        -- right. split; [done|]. by exists b', f'.
Qed.

Lemma index_doc_Ok (st st' : gset atom * gmap Z (gset atom)) (doc : value) :
  index_doc hash include st doc = Ok st' →
  ∃ a bs, has_id doc a ∧ _traverse_tree doc include = Ok bs ∧
          st'.1 = {[set_key a]} ∪ st.1 ∧
          for_each (index_add hash a) bs st.2 = Ok st'.2.
Proof.
  unfold index_doc. intros H.
  apply rbind_Ok in H as (x & Hx & H).
  apply rbind_Ok in H as (a & Ha & H).
  apply rbind_Ok in H as (bs & Hbs & H).
  apply rbind_Ok in H as (index' & Hi & [= <-]).
  destruct x as [a'| |]; try discriminate Ha. injection Ha as ->.
  by exists a, bs.
Qed.

Lemma index_docs_spec (docs : list value)
    (st st' : gset atom * gmap Z (gset atom)) :
  for_each (index_doc hash include) docs st = Ok st' →
  (∀ x, x ∈ st'.1 ↔
        x ∈ st.1 ∨ ∃ doc a, doc ∈ docs ∧ has_id doc a ∧ x = set_key a) ∧
  (∀ h x, x ∈ dd_get st'.2 h ↔
          x ∈ dd_get st.2 h ∨
          ∃ doc a, doc ∈ docs ∧ has_id doc a ∧ x = set_key a ∧
                   has_hash hash include doc h) ∧
  (∀ doc, doc ∈ docs →
          ∃ a bs, has_id doc a ∧ _traverse_tree doc include = Ok bs).
Proof.
  revert st. induction docs as [|doc docs IH]; intros st; simpl.
  - intros [= <-]. split_and!.
    + intros x. split; [by left|]. by intros [?|(? & ? & ?%elem_of_nil & _)].
    + intros h x. split; [by left|].
      by intros [?|(? & ? & ?%elem_of_nil & _)].
    + by intros doc ?%elem_of_nil.
  - intros H. apply rbind_Ok in H as (st1 & H1 & H).
    apply index_doc_Ok in H1 as (a & bs & Hid & Hbs & Hids & Hindex).
    destruct (IH _ H) as (IHids & IHindex & IHdocs). split_and!.
    + intros x. rewrite IHids, Hids. split.
      * intros [[->%elem_of_singleton|Hx]%elem_of_union|(d & a' & Hd & ?)].
        -- right. exists doc, a. by rewrite elem_of_cons; eauto.
        -- by left.
        -- right. exists d, a'. by rewrite elem_of_cons; eauto.
      * intros [Hx|(d & a' & Hd & Hid' & ->)]; [set_solver|].
        apply elem_of_cons in Hd as [->|Hd]; [|by eauto 10].
        left. unfold has_id in *. rewrite Hid in Hid'.
        injection Hid' as <-. set_solver.
    + intros h x. rewrite IHindex, (index_add_elem _ _ _ _ _ _ Hindex).
      split.
      * intros [[Hx|(-> & b & f & Hb & Hf & Hh)]|(d & a' & Hd & ?)].
        -- by left.
        -- right. exists doc, a. rewrite elem_of_cons.
           split_and!; eauto. by exists bs, b, f.
        -- right. exists d, a'. by rewrite elem_of_cons; eauto.
      * intros [Hx|(d & a' & Hd & Hid' & -> & Hh)]; [by eauto|].
        apply elem_of_cons in Hd as [->|Hd]; [|by eauto 10].
        left. right. unfold has_id in *. rewrite Hid in Hid'.
        injection Hid' as <-. split; [done|].
        destruct Hh as (bs' & b & f & Hbs' & Hb & Hf & Hh).
        rewrite Hbs in Hbs'. injection Hbs' as <-. eauto.
    + intros d [->|Hd]%elem_of_cons; [by eauto|by apply IHdocs].
Qed.

End Index.

Section Construction.
Variable py_hash : list atom → Z.

Lemma init_Ok (docs : option (list value)) (include : value)
    (hash_ : option (list atom → Z)) (e : engine) :
  __init__ py_hash docs include hash_ = Ok e →
  ∃ r, _build_index (default_hash py_hash hash_) docs include = Ok r ∧
       e = Engine (default_hash py_hash hash_) r.1.1 r.1.2 r.2.
Proof.
  unfold __init__. intros H. apply rbind_Ok in H as (r & Hr & [= <-]).
  by exists r.
Qed.

(** What a constructed engine holds. *)
Lemma init_spec (docs : option (list value)) (include : value)
    (hash_ : option (list atom → Z)) (e : engine) :
  __init__ py_hash docs include hash_ = Ok e →
  _hash e = default_hash py_hash hash_ ∧
  (∀ x, x ∈ ids e ↔
        ∃ doc a, doc ∈ docs_list docs ∧ has_id doc a ∧ x = set_key a) ∧
  (∀ h x, x ∈ dd_get (index e) h ↔
          ∃ doc a, doc ∈ docs_list docs ∧ has_id doc a ∧ x = set_key a ∧
                   has_hash (default_hash py_hash hash_) include doc h) ∧
  (∀ doc, doc ∈ docs_list docs →
          ∃ a bs, has_id doc a ∧ _traverse_tree doc include = Ok bs) ∧
  (is_None include = true → included e = None) ∧
  (is_None include = false → ∃ inc, included e = Some inc).
Proof.
  intros (r & Hr & ->)%init_Ok. simpl. split; [done|].
  unfold _build_index in Hr.
  apply rbind_Ok in Hr as (inc & Hinc & Hr).
  apply rbind_Ok in Hr as (st & Hst & [= <-]). simpl.
  assert ((is_None include = true → inc = None) ∧
          (is_None include = false → ∃ i, inc = Some i)) as [? ?].
  { destruct (is_None include).
    - injection Hinc as <-. by split.
    - apply rbind_Ok in Hinc as (bs & _ & Hinc).
      apply rbind_Ok in Hinc as (i & _ & [= <-]). split; [done|by eauto]. }
  destruct docs as [docs|]; simpl.
  - apply index_docs_spec in Hst as (Hids & Hindex & Hdocs). simpl in *.
    split_and!; [| |done..].
    + intros x. rewrite Hids. set_solver.
    + intros h x. rewrite Hindex, dd_get_empty. set_solver.
  - injection Hst as <-. simpl. split_and!; [| |by intros ? ?%elem_of_nil|done..].
    + intros x. split; [set_solver|]. by intros (? & ? & ?%elem_of_nil & _).
    + intros h x. rewrite dd_get_empty.
      split; [set_solver|]. by intros (? & ? & ?%elem_of_nil & _).
Qed.

End Construction.

(** ** The query methods *)

Lemma readonly_ret {A : Type} (a : A) : readonly (ret a).
Proof. done. Qed.

Lemma readonly_raise {A : Type} (x : exn) : readonly (@raise A x).
Proof. done. Qed.

Lemma readonly_lift {A : Type} (r : res A) : readonly (lift r).
Proof. done. Qed.

Lemma readonly_attr {A : Type} (field : engine → A) : readonly (attr field).
Proof. done. Qed.

Lemma readonly_bind {A B : Type} (m : M A) (k : A → M B) :
  readonly m → (∀ a, readonly (k a)) → readonly (bind m k).
Proof.
  intros Hm Hk self. unfold bind. specialize (Hm self).
  destruct (m self) as [[a|x] self']; simpl in *; subst; [apply Hk|done].
Qed.

Lemma outcome_bind {A B : Type} (m : M A) (k : A → M B) (self : engine) :
  readonly m →
  outcome (bind m k) self = let* a := outcome m self in outcome (k a) self.
Proof.
  intros Hm. unfold outcome, bind. specialize (Hm self).
  by destruct (m self) as [[a|x] self']; simpl in *; subst.
Qed.

Create HintDb readonly.
#[local] Hint Resolve readonly_ret readonly_raise readonly_lift readonly_attr
  readonly_bind : readonly.

Lemma readonly_filter_supported (filter : value) :
  readonly (_filter_supported filter).
Proof.
  unfold _filter_supported. apply readonly_bind; [auto with readonly|].
  intros [inc|]; auto 10 with readonly.
Qed.

Lemma readonly_check_filter (filter : value) : readonly (check_filter filter).
Proof.
  unfold check_filter.
  destruct (is_None filter); [auto with readonly|].
  destruct (negb (_valid_filter filter)); [auto with readonly|].
  apply readonly_bind; [apply readonly_filter_supported|].
  intros []; simpl; auto with readonly.
Qed.

Lemma readonly_find (filter : value) : readonly (find filter).
Proof.
  unfold find. apply readonly_bind; [apply readonly_check_filter|]. intros _.
  apply readonly_bind.
  { destruct (is_None filter); auto with readonly. }
  intros []; [auto with readonly|].
  repeat (apply readonly_bind; [auto with readonly|]; intros ?).
  by match goal with |- readonly (match ?r with _ => _ end) => destruct r end.
Qed.

Lemma readonly_len : readonly __len__.
Proof. done. Qed.

(** The outcomes of the query methods, as functions of [self]. *)
Lemma filter_supported_outcome (filter : value) (self : engine) :
  outcome (_filter_supported filter) self =
  match included self with
  | None => Ok true
  | Some inc =>
      let* bs := _traverse_tree filter VNone in
      branches_supported (_hash self) inc bs
  end.
Proof.
  unfold _filter_supported, outcome, bind, attr, lift, ret. simpl.
  destruct (included self); [|done].
  by destruct (_traverse_tree filter VNone).
Qed.

Lemma check_filter_outcome (filter : value) (self : engine) :
  outcome (check_filter filter) self =
  if is_None filter then Ok VTrue
  else if negb (_valid_filter filter) then Err ValueError
  else
    let* supported := outcome (_filter_supported filter) self in
    if negb supported then Err RuntimeError else Ok VNone.
Proof.
  unfold check_filter.
  destruct (is_None filter); [done|].
  destruct (negb (_valid_filter filter)); [done|].
  rewrite outcome_bind by apply readonly_filter_supported.
  destruct (outcome (_filter_supported filter) self) as [[]|]; done.
Qed.

Lemma find_outcome (filter : value) (self : engine) :
  outcome (find filter) self =
  let* _ := outcome (check_filter filter) self in
  let* empty :=
    if is_None filter then Ok true
    else let* n := py_len filter in Ok (Nat.eqb n 0) in
  if empty then Ok (ids self)
  else
    let* bs := _traverse_tree filter VNone in
    let* r := find_loop (_hash self) (index self) bs None in
    Ok (default ∅ r).
Proof.
  unfold find. rewrite outcome_bind by apply readonly_check_filter.
  destruct (outcome (check_filter filter) self) as [c|x]; [simpl|done].
  rewrite outcome_bind.
  2:{ destruct (is_None filter); auto with readonly. }
  destruct (is_None filter).
  { done. }
  unfold outcome at 1, bind at 1, lift at 1. simpl.
  destruct (py_len filter) as [n|x]; [simpl|done].
  destruct (Nat.eqb n 0); [done|].
  unfold outcome, bind, attr, lift, ret. simpl.
  destruct (_traverse_tree filter VNone) as [bs|x]; [simpl|done].
  by destruct (find_loop (_hash self) (index self) bs None) as [[r|]|x].
Qed.

(** ** The loop of [find] *)

Lemma find_loop_app (hash : list atom → Z) (index : gmap Z (gset atom))
    (bs1 bs2 : list branch) (r : option (gset atom)) :
  find_loop hash index (bs1 ++ bs2) r =
  let* r' := find_loop hash index bs1 r in find_loop hash index bs2 r'.
Proof.
  revert r. induction bs1 as [|b bs1 IH]; intros r; simpl; [done|].
  destruct (_flatten b) as [f|x]; simpl; [|done].
  by destruct r.
Qed.

(** Started with a set, the loop ends with a subset of it, and commutes
    with a further intersection. *)
Lemma find_loop_Some (hash : list atom → Z) (index : gmap Z (gset atom))
    (bs : list branch) (a : gset atom) (r : option (gset atom)) :
  find_loop hash index bs (Some a) = Ok r →
  ∃ s, r = Some s ∧ s ⊆ a ∧
       ∀ r0, find_loop hash index bs (Some (r0 ∩ a)) = Ok (Some (r0 ∩ s)).
Proof.
  revert a. induction bs as [|b bs IH]; intros a; simpl.
  - intros [= <-]. by exists a.
  - destruct (_flatten b) as [f|x]; simpl; [|done].
    intros (s & -> & Hs & Hr)%IH. exists s. split_and!; [done|set_solver|].
    intros r0. rewrite <-Hr. f_equal. f_equal. set_solver.
Qed.

(** Started with [None], the loop ends with [None] only if there was no
    branch, and otherwise within the entry of its first branch. *)
Lemma find_loop_None (hash : list atom → Z) (index : gmap Z (gset atom))
    (bs : list branch) (r : option (gset atom)) :
  find_loop hash index bs None = Ok r →
  match r with
  | None => bs = []
  | Some s => ∃ b bs' f, bs = b :: bs' ∧ _flatten b = Ok f ∧
                         s ⊆ dd_get index (hash f)
  end.
Proof.
  destruct bs as [|b bs]; simpl.
  - by intros [= <-].
  - destruct (_flatten b) as [f|x] eqn:Hf; simpl; [|done].
    intros (s & -> & Hs & _)%find_loop_Some. by exists b, bs, f.
Qed.

(** The tuples of branches that are pairs can be flattened. *)
Lemma find_loop_pairs (hash : list atom → Z) (index : gmap Z (gset atom))
    (bs : list branch) (r : option (gset atom)) :
  Forall (λ b, ∃ k b', b = BPair k b') bs →
  ∃ r', find_loop hash index bs r = Ok r'.
Proof.
  intros Hbs. revert r.
  induction Hbs as [|b bs (k & b' & ->) _ IH]; intros r; simpl; [by eauto|].
  destruct r; apply IH.
Qed.

(** ** Every entry of the index lies within [ids] *)

Lemma init_index_subset (py_hash : list atom → Z) (docs : option (list value))
    (include : value) (hash_ : option (list atom → Z)) (e : engine) (h : Z) :
  __init__ py_hash docs include hash_ = Ok e → dd_get (index e) h ⊆ ids e.
Proof.
  intros (_ & Hids & Hindex & _)%init_spec x.
  rewrite Hindex, Hids. intros (doc & a & ? & ? & ? & _). eauto.
Qed.

Lemma find_subset (e : engine) (filter : value) (s : gset atom) :
  (∀ h, dd_get (index e) h ⊆ ids e) →
  outcome (find filter) e = Ok s → s ⊆ ids e.
Proof.
  intros Hindex. rewrite find_outcome. intros H.
  apply rbind_Ok in H as (_ & _ & H).
  apply rbind_Ok in H as ([] & _ & H).
  - by injection H as <-.
  - apply rbind_Ok in H as (bs & _ & H).
    apply rbind_Ok in H as (r & Hr & [= <-]).
    apply find_loop_None in Hr. destruct r as [s|]; simpl; [|set_solver].
    destruct Hr as (b & bs' & f & _ & _ & Hs).
    etrans; [exact Hs|apply Hindex].
Qed.

(** C10. After a successful construction every set stored in the index is
    a subset of [ids]; every id that [find] yields, for any filter, is in
    [ids]; and [find], [check_filter] and [__len__] leave [ids], [index]
    and [included] (the whole of [self]) unchanged. *)
Theorem index_within_ids (py_hash : list atom → Z)
    (docs : option (list value)) (include : value)
    (hash_ : option (list atom → Z)) (e : engine) :
  __init__ py_hash docs include hash_ = Ok e →
  (∀ h s, index e !! h = Some s → s ⊆ ids e) ∧
  (∀ filter s, outcome (find filter) e = Ok s → s ⊆ ids e) ∧
  (∀ filter, after (find filter) e = e ∧ after (check_filter filter) e = e) ∧
  after __len__ e = e.
Proof.
  intros He. split_and!.
  - intros h s Hs. pose proof (init_index_subset _ _ _ _ _ h He) as Hsub.
    unfold dd_get in Hsub. by rewrite Hs in Hsub.
  - intros filter s. apply find_subset. intros h.
    by eapply init_index_subset.
  - intros filter. split; [apply readonly_find|apply readonly_check_filter].
  - done.
Qed.

Lemma index_within_ids_witness :
  __init__ encode_hash (Some scenario_docs) VNone None = Ok scenario_engine ∧
  (∀ h s, index scenario_engine !! h = Some s → s ⊆ ids scenario_engine) ∧
  (∀ filter s, outcome (find filter) scenario_engine = Ok s →
               s ⊆ ids scenario_engine) ∧
  (∀ filter, after (find filter) scenario_engine = scenario_engine ∧
             after (check_filter filter) scenario_engine = scenario_engine) ∧
  after __len__ scenario_engine = scenario_engine.
Proof.
  split; [vm_compute; reflexivity|].
  apply (index_within_ids encode_hash (Some scenario_docs) VNone None).
  vm_compute; reflexivity.
Defined.

(** ** The empty filter *)

(** C4. For every engine, whatever the documents and the include
    specification it was built from, [find(None)] and [find({})] yield
    exactly [ids], and [check_filter] accepts [None] and [{}] without
    raising. *)
Theorem empty_filter_selects_all (e : engine) :
  outcome (find VNone) e = Ok (ids e) ∧
  outcome (find (VDict [])) e = Ok (ids e) ∧
  outcome (check_filter VNone) e = Ok VTrue ∧
  outcome (check_filter (VDict [])) e = Ok VNone.
Proof.
  assert (outcome (check_filter (VDict [])) e = Ok VNone) as Hcheck.
  { rewrite check_filter_outcome, filter_supported_outcome. simpl.
    by destruct (included e). }
  split_and!; [| |done..].
  - by rewrite find_outcome, check_filter_outcome.
  - by rewrite find_outcome, Hcheck.
Qed.

(** ** Round trip: a branch of an indexed document finds the document *)

Lemma traverse_branch_filter (b : branch) :
  _traverse_tree (branch_filter b) VNone = Ok [b].
Proof.
  induction b as [a|k b IH]; [done|].
  cbn [branch_filter]. by rewrite traverse_None_cons, IH, traverse_dict_nil.
Qed.

Lemma valid_branch_filter (b : branch) : _valid_filter (branch_filter b) = true.
Proof. induction b as [a|k b IH]; [done|]. simpl in *. by rewrite IH. Qed.

(** C2. With no include specification, for every indexed document [D] and
    every branch [B] of [D], [find] on the filter rebuilt from [B] yields a
    set that contains the id of [D]. *)
Theorem find_branch_roundtrip (py_hash : list atom → Z) (docs : list value)
    (hash_ : option (list atom → Z)) (e : engine) (D : value)
    (bs : list branch) (B : branch) :
  __init__ py_hash (Some docs) VNone hash_ = Ok e →
  D ∈ docs → _traverse_tree D VNone = Ok bs → B ∈ bs →
  ∃ a s, has_id D a ∧ outcome (find (branch_filter B)) e = Ok s ∧
         set_key a ∈ s.
Proof.
  intros (Hh & _ & Hindex & Hdocs & Hinc & _)%init_spec HD Hbs HB.
  destruct (Hdocs D HD) as (a & _ & Hid & _).
  assert (∃ m, D = VDict m) as [m ->].
  { unfold has_id in Hid. destruct D; try discriminate Hid. by eexists. }
  pose proof (traverse_dict_pairs _ _ _ Hbs) as Hpairs.
  rewrite Forall_forall in Hpairs. destruct (Hpairs B HB) as (k & b' & ->).
  exists a, (dd_get (index e) (_hash e (AStr k :: flat b'))).
  split_and!; [done| |].
  - rewrite find_outcome, check_filter_outcome, filter_supported_outcome.
    rewrite valid_branch_filter, (Hinc eq_refl), traverse_branch_filter.
    done.
  - apply Hindex. exists (VDict m), a. split_and!; [done..|].
    exists bs, (BPair k b'), (AStr k :: flat b'). by rewrite Hh.
Qed.

Lemma find_branch_roundtrip_witness :
  ∃ a s, has_id (VDict [("_id", VInt 1); ("a", VInt 1);
                        ("b", VDict [("c", VInt 2)])]) a ∧
         outcome (find (branch_filter (BPair "b" (BPair "c" (BLeaf (AInt 2))))))
           scenario_engine = Ok s ∧
         set_key a ∈ s.
Proof.
  apply (find_branch_roundtrip encode_hash scenario_docs None scenario_engine
           (VDict [("_id", VInt 1); ("a", VInt 1); ("b", VDict [("c", VInt 2)])])
           [BPair "_id" (BLeaf (AInt 1)); BPair "a" (BLeaf (AInt 1));
            BPair "b" (BPair "c" (BLeaf (AInt 2)))]).
  - vm_compute; reflexivity.
  - unfold scenario_docs. apply elem_of_cons. by left.
  - reflexivity.
  - apply elem_of_cons. right. apply elem_of_cons. right.
    apply elem_of_cons. by left.
Defined.

(** ** The scenario *)

Lemma scenario_init (py_hash : list atom → Z) :
  __init__ py_hash (Some scenario_docs) VNone None =
  Ok (Engine py_hash
        ({[AInt 2]} ∪ ({[AInt 1]} ∪ ∅))
        (dd_add (dd_add (dd_add (dd_add (dd_add (dd_add ∅
           (py_hash [AStr "_id"; AInt 1]) (AInt 1))
           (py_hash [AStr "a"; AInt 1]) (AInt 1))
           (py_hash [AStr "b"; AStr "c"; AInt 2]) (AInt 1))
           (py_hash [AStr "_id"; AInt 2]) (AInt 2))
           (py_hash [AStr "a"; AInt 1]) (AInt 2))
           (py_hash [AStr "b"; AStr "c"; AInt 3]) (AInt 2))
        None).
Proof. reflexivity. Qed.

(** C1. With the two documents of the scenario indexed and no include
    specification, under a builtin hash that keeps the six tuples involved
    apart, [find({"a": 1})] yields exactly the ids 1 and 2,
    [find({"a": 1, "b": {"c": 2}})] yields exactly the id 1,
    [find({"b": {"c": 9}})] yields nothing, and [__len__] returns 2. *)
Theorem scenario_queries (py_hash : list atom → Z) :
  NoDup (map py_hash scenario_tuples) →
  ∃ e, __init__ py_hash (Some scenario_docs) VNone None = Ok e ∧
       outcome (find (VDict [("a", VInt 1)])) e = Ok {[AInt 1; AInt 2]} ∧
       outcome (find (VDict [("a", VInt 1); ("b", VDict [("c", VInt 2)])])) e =
         Ok {[AInt 1]} ∧
       outcome (find (VDict [("b", VDict [("c", VInt 9)])])) e = Ok ∅ ∧
       outcome __len__ e = Ok 2%nat.
Proof.
  intros Hnodup. simpl in Hnodup.
  repeat (apply NoDup_cons in Hnodup as [? Hnodup]).
  repeat match goal with
         | H : _ ∉ _ :: _ |- _ => apply not_elem_of_cons in H as [? H]
         end.
  eexists. split; [apply scenario_init|].
  split_and!; [| | |by vm_compute].
  all: rewrite find_outcome, check_filter_outcome, filter_supported_outcome;
    cbn -[dd_get dd_add]; rewrite !dd_get_dd_add, dd_get_empty;
    repeat case_decide; try congruence; f_equal; set_solver.
Qed.

Lemma scenario_queries_witness :
  NoDup (map encode_hash scenario_tuples) ∧
  ∃ e, __init__ encode_hash (Some scenario_docs) VNone None = Ok e ∧
       outcome (find (VDict [("a", VInt 1)])) e = Ok {[AInt 1; AInt 2]} ∧
       outcome (find (VDict [("a", VInt 1); ("b", VDict [("c", VInt 2)])])) e =
         Ok {[AInt 1]} ∧
       outcome (find (VDict [("b", VDict [("c", VInt 9)])])) e = Ok ∅ ∧
       outcome __len__ e = Ok 2%nat.
Proof.
  assert (NoDup (map encode_hash scenario_tuples)) as H.
  { apply (bool_decide_unpack _). vm_compute. exact I. }
  split; [exact H|apply (scenario_queries encode_hash H)].
Defined.

(** ** Structural validity of filters *)

Lemma valid_filter_dict_cons (k : string) (v : value)
    (m : list (string * value)) :
  _valid_filter (VDict ((k, v) :: m)) =
  _valid_filter v && _valid_filter (VDict m).
Proof. done. Qed.

Lemma valid_filter_dict (m : list (string * value)) :
  _valid_filter (VDict m) = true ↔ ∀ k v, (k, v) ∈ m → _valid_filter v = true.
Proof.
  induction m as [|[k0 v0] m IH].
  - split; [by intros _ ? ? ?%elem_of_nil|done].
  - rewrite valid_filter_dict_cons, andb_true_iff, IH. split.
    + intros [H0 Hm] k v [[= -> ->]|Hin]%elem_of_cons; eauto.
    + intros H. split; [|intros k v Hin]; eapply H; rewrite elem_of_cons; eauto.
Qed.

(** [_valid_filter] fails on a mapping exactly when a list is among its
    values, at some depth. *)
Lemma invalid_filter_iff (m : list (string * value)) :
  _valid_filter (VDict m) = false ↔ has_list_value m.
Proof.
  split.
  - assert (∀ t, ∀ m, t = VDict m → _valid_filter t = false →
                   has_list_value m) as H; [|by eauto].
    intros t. induction t as [a|l IH|m' IH] using value_ind; try done.
    intros ? [= <-]. induction IH as [|[k v] m' Hv _ IHm]; [done|].
    rewrite valid_filter_dict_cons, andb_false_iff. simpl in Hv.
    intros [Hinv|Hinv].
    + destruct v as [a|l|mv]; [done| |].
      * apply (list_here _ k l). by left.
      * apply (list_below _ k mv); [by left|by eapply Hv].
    + destruct (IHm Hinv) as [? k' l Hin|? k' mv Hin Hmv].
      * apply (list_here _ k' l). by right.
      * apply (list_below _ k' mv); [by right|done].
  - induction 1 as [m k l Hin|m k mv Hin _ IH].
    + apply not_true_iff_false. rewrite valid_filter_dict.
      intros H. by specialize (H _ _ Hin).
    + apply not_true_iff_false. rewrite valid_filter_dict.
      intros H. specialize (H _ _ Hin). congruence.
Qed.

(** C7. [check_filter] raises [ValueError] for every filter in which a
    list is the value of a mapping at any depth, whatever the engine holds;
    so does [find]; in particular [check_filter({"tags": ["x", "y"]})]
    raises [ValueError] for every engine. *)
Theorem list_value_rejected (e : engine) :
  (∀ m, has_list_value m →
        outcome (check_filter (VDict m)) e = Err ValueError ∧
        outcome (find (VDict m)) e = Err ValueError) ∧
  outcome (check_filter (VDict [("tags", VList [VStr "x"; VStr "y"])])) e =
    Err ValueError.
Proof.
  split; [|done].
  intros m Hm%invalid_filter_iff.
  assert (outcome (check_filter (VDict m)) e = Err ValueError) as Hcheck.
  { rewrite check_filter_outcome. simpl is_None. cbv iota. by rewrite Hm. }
  split; [done|]. by rewrite find_outcome, Hcheck.
Qed.

Lemma list_value_rejected_witness :
  has_list_value [("a", VDict [("tags", VList [VStr "x"; VStr "y"])])] ∧
  outcome (check_filter
             (VDict [("a", VDict [("tags", VList [VStr "x"; VStr "y"])])]))
    scenario_engine = Err ValueError ∧
  outcome (find (VDict [("a", VDict [("tags", VList [VStr "x"; VStr "y"])])]))
    scenario_engine = Err ValueError.
Proof.
  assert (has_list_value
            [("a", VDict [("tags", VList [VStr "x"; VStr "y"])])]) as H.
  { apply (list_below _ "a" [("tags", VList [VStr "x"; VStr "y"])]).
    - apply elem_of_cons. by left.
    - apply (list_here _ "tags" [VStr "x"; VStr "y"]).
      apply elem_of_cons. by left. }
  split; [exact H|].
  exact (proj1 (list_value_rejected scenario_engine) _ H).
Defined.

(** ** The support check *)

Lemma slice_to_neg_1_length {A : Type} (f : list A) :
  length (slice_to_neg f 1) = (length f - 1)%nat.
Proof. unfold slice_to_neg. rewrite length_take. lia. Qed.

Lemma slice_to_neg_pos {A : Type} (f : list A) (i : nat) :
  (1 ≤ i)%nat →
  slice_to_neg f i = take (length f - i)%nat (slice_to_neg f 1).
Proof.
  intros Hi. destruct i as [|i]; [lia|]. unfold slice_to_neg.
  rewrite take_take. f_equal. lia.
Qed.

(** The slices [f[:-i]] for [i] in [range(len(f))] are the prefixes of the
    key sequence [f[:-1]], the empty one included. *)
Lemma branch_supported_iff (hash : list atom → Z) (inc : gmap Z atom)
    (f : list atom) :
  (1 ≤ length f)%nat →
  branch_supported hash inc f = true ↔
  ∃ n, (n ≤ length (slice_to_neg f 1))%nat ∧
       truthy_atom (included_get inc (hash (take n (slice_to_neg f 1)))) = true.
Proof.
  intros Hlen. unfold branch_supported. rewrite existsb_exists.
  setoid_rewrite in_seq. unfold prefix_supported.
  rewrite slice_to_neg_1_length. split.
  - intros (i & [_ Hi] & Ht). destruct (decide (i = 0%nat)) as [->|Hne].
    + exists 0%nat. split; [lia|]. by rewrite take_0.
    + exists (length f - i)%nat. split; [lia|].
      by rewrite <-slice_to_neg_pos by lia.
  - intros (n & Hn & Ht). destruct (decide (n = 0%nat)) as [->|Hne].
    + exists 0%nat. split; [lia|]. by rewrite take_0 in Ht.
    + exists (length f - n)%nat. split; [lia|].
      rewrite slice_to_neg_pos by lia.
      by replace (length f - (length f - n))%nat with n by lia.
Qed.

(** On branches that are pairs the outer loop never raises; it returns
    [True] exactly when the inner loop accepts every branch. *)
Lemma branches_supported_pairs (hash : list atom → Z) (inc : gmap Z atom)
    (bs : list branch) :
  Forall (λ b, ∃ k b', b = BPair k b') bs →
  ∃ r, branches_supported hash inc bs = Ok r ∧
       (r = true ↔
        ∀ b, b ∈ bs → ∃ f, _flatten b = Ok f ∧
                           branch_supported hash inc f = true).
Proof.
  induction 1 as [|b bs (k & b' & ->) _ (r & Hr & IH)]; simpl.
  - exists true. split; [done|]. split; [|done]. by intros _ ? ?%elem_of_nil.
  - destruct (branch_supported hash inc (AStr k :: flat b')) eqn:Hb.
    + exists r. split; [done|]. rewrite IH. split.
      * intros Hbs b [->|Hin]%elem_of_cons; [by eauto|by apply Hbs].
      * intros Hbs b Hin. apply Hbs. by right.
    + exists false. split; [done|]. split; [done|].
      intros Hbs. destruct (Hbs (BPair k b')) as (f & [= <-] & Hf); [by left|].
      congruence.
Qed.

(** C6. With an include specification, [_filter_supported] flattens the
    filter into branches and returns [True] exactly when, for every branch,
    some prefix of its key sequence [f[:-1]], of any length from the whole
    sequence down to 0, has a truthy entry in [included]; it returns
    [False] otherwise.  Without an include specification it returns [True]
    for every filter. *)
Theorem filter_supported_prefixes (e : engine) (m : list (string * value)) :
  (included e = None →
   ∀ filter, outcome (_filter_supported filter) e = Ok true) ∧
  (∀ inc, included e = Some inc →
     ∃ bs r,
       _traverse_tree (VDict m) VNone = Ok bs ∧
       outcome (_filter_supported (VDict m)) e = Ok r ∧
       (r = true ↔
        ∀ b, b ∈ bs →
          ∃ f n, _flatten b = Ok f ∧
                 (n ≤ length (slice_to_neg f 1))%nat ∧
                 truthy_atom
                   (included_get inc
                      (_hash e (take n (slice_to_neg f 1)))) = true)).
Proof.
  split.
  - intros Hinc filter. by rewrite filter_supported_outcome, Hinc.
  - intros inc Hinc.
    destruct (traverse_None_total (VDict m)) as [bs Hbs].
    pose proof (traverse_dict_pairs _ _ _ Hbs) as Hpairs.
    destruct (branches_supported_pairs (_hash e) inc bs Hpairs)
      as (r & Hr & Hiff).
    exists bs, r. split_and!; [done| |].
    + by rewrite filter_supported_outcome, Hinc, Hbs.
    + rewrite Hiff. rewrite Forall_forall in Hpairs.
      split; intros H b Hb.
      * destruct (H b Hb) as (f & Hf & Hsup).
        destruct (Hpairs b Hb) as (k & b' & ->). injection Hf as <-.
        apply branch_supported_iff in Hsup as (n & Hn & Ht);
          [|simpl; lia].
        by exists (AStr k :: flat b'), n.
      * destruct (H b Hb) as (f & n & Hf & Hn & Ht).
        destruct (Hpairs b Hb) as (k & b' & ->). injection Hf as <-.
        exists (AStr k :: flat b'). split; [done|].
        apply branch_supported_iff; [simpl; lia|]. by exists n.
Qed.

Lemma filter_supported_prefixes_witness :
  (included scenario_engine = None ∧
   ∀ filter, outcome (_filter_supported filter) scenario_engine = Ok true) ∧
  (included engine_ab = Some (included_ab encode_hash) ∧
   ∃ bs r,
     _traverse_tree (VDict [("a", VDict [("c", VInt 1)])]) VNone = Ok bs ∧
     outcome (_filter_supported (VDict [("a", VDict [("c", VInt 1)])]))
       engine_ab = Ok r ∧
     (r = true ↔
      ∀ b, b ∈ bs →
        ∃ f n, _flatten b = Ok f ∧
               (n ≤ length (slice_to_neg f 1))%nat ∧
               truthy_atom
                 (included_get (included_ab encode_hash)
                    (_hash engine_ab (take n (slice_to_neg f 1)))) = true)).
Proof.
  split.
  - assert (included scenario_engine = None) as H by (vm_compute; reflexivity).
    split; [exact H|].
    exact (proj1 (filter_supported_prefixes scenario_engine []) H).
  - assert (included engine_ab = Some (included_ab encode_hash)) as H
      by (vm_compute; reflexivity).
    split; [exact H|].
    exact (proj2 (filter_supported_prefixes engine_ab
                    [("a", VDict [("c", VInt 1)])]) _ H).
Defined.

(** ** The include specification [{"a": True, "b": False}] *)

Lemma encode_hash_inj (p q : list atom) : encode_hash p = encode_hash q → p = q.
Proof. unfold encode_hash. intros [= H]. by apply (inj encode). Qed.






Lemma traverse_single (k : string) (x : value) (bs : list branch) :
  _traverse_tree x VNone = Ok bs →
  _traverse_tree (VDict [(k, x)]) VNone = Ok (map (BPair k) bs).
Proof.
  intros Hx. rewrite traverse_None_cons, Hx, traverse_dict_nil. simpl.
  by rewrite app_nil_r.
Qed.





(** ** Construction *)

Lemma dict_get_elem (m : list (string * value)) (k : string) (v : value) :
  dict_get m k = Some v → (k, v) ∈ m.
Proof.
  induction m as [|[k' v'] m IH]; simpl; [done|].
  case_decide as E.
  - intros [= ->]. subst. by left.
  - intros H. right. by apply IH.
Qed.

(** Under a tree of booleans, or no directive at all, the traversal never
    raises. *)
Lemma traverse_include_tree (t inc : value) :
  inc = VNone ∨ include_tree inc → ∃ bs, _traverse_tree t inc = Ok bs.
Proof.
  revert inc. induction t as [a|l IH|m IH] using value_ind; intros inc Hinc.
  - simpl. destruct (is_False inc); by eauto.
  - induction IH as [|i l Hi _ IHl].
    + rewrite traverse_list_nil. by eauto.
    + rewrite traverse_list_cons.
      destruct (Hi inc Hinc) as [bs ->]. destruct IHl as [rest ->].
      by eexists.
  - destruct Hinc as [->|Hinc]; [apply traverse_None_total|].
    destruct Hinc as [[]|mi Hmi].
    + rewrite traverse_True. apply traverse_None_total.
    + rewrite traverse_False. by eauto.
    + induction IH as [|[k v] m Hv _ IHm].
      * rewrite traverse_dict_nil. by eauto.
      * rewrite traverse_dict_dict_cons. destruct IHm as [rest Hrest].
        destruct (dict_get mi k) as [d|] eqn:Hd; [|by eauto].
        destruct (truthy d); [|by eauto].
        destruct (Hv d) as [bs Hbs].
        { right. eapply Hmi. by apply dict_get_elem. }
        simpl in Hbs. rewrite Hbs, Hrest. by eexists.
Qed.

Lemma for_each_index_add_pairs (hash : list atom → Z) (id : atom)
    (bs : list branch) (index : gmap Z (gset atom)) :
  Forall (λ b, ∃ k b', b = BPair k b') bs →
  ∃ index', for_each (index_add hash id) bs index = Ok index'.
Proof.
  intros Hbs. revert index.
  induction Hbs as [|b bs (k & b' & ->) _ IH]; intros index; simpl;
    [by eauto|apply IH].
Qed.

Lemma for_each_included_add_pairs (hash : list atom → Z) (bs : list branch)
    (inc : gmap Z atom) :
  Forall (λ b, ∃ k b', b = BPair k b') bs →
  ∃ inc', for_each (included_add hash) bs inc = Ok inc'.
Proof.
  intros Hbs. revert inc.
  induction Hbs as [|b bs (k & b' & ->) _ IH]; intros inc; [by eexists|].
  cbn [for_each]. unfold included_add at 1. rewrite flatten_pair.
  cbn [rbind]. unfold py_last.
  destruct (last (AStr k :: flat b')) as [d|] eqn:Hlast.
  - cbn [rbind]. apply IH.
  - apply last_None in Hlast. discriminate Hlast.
Qed.

(** A document is well formed when it is a mapping whose ['_id'], if it has
    one, is a scalar. *)
Lemma index_doc_well_formed (hash : list atom → Z) (include : value)
    (st : gset atom * gmap Z (gset atom)) (m : list (string * value)) :
  include = VNone ∨ include_tree include →
  (∀ x, dict_get m "_id" = Some x → ∃ a, x = VAtom a) →
  match dict_get m "_id" with
  | None => index_doc hash include st (VDict m) = Err KeyError
  | Some _ => ∃ st', index_doc hash include st (VDict m) = Ok st'
  end.
Proof.
  intros Hinc Hid. unfold index_doc, py_getitem.
  destruct (dict_get m "_id") as [x|]; [|done].
  destruct (Hid x eq_refl) as [a ->]. cbn [rbind hashable].
  destruct (traverse_include_tree (VDict m) include Hinc) as [bs Hbs].
  rewrite Hbs. cbn [rbind].
  destruct (for_each_index_add_pairs hash a bs st.2) as [index' ->].
  { by eapply traverse_dict_pairs. }
  by eexists.
Qed.

Lemma index_docs_missing_id (hash : list atom → Z) (include : value)
    (docs : list value) (st : gset atom * gmap Z (gset atom)) :
  include = VNone ∨ include_tree include →
  (∀ d, d ∈ docs →
        ∃ m, d = VDict m ∧ ∀ x, dict_get m "_id" = Some x → ∃ a, x = VAtom a) →
  (∃ m, VDict m ∈ docs ∧ dict_get m "_id" = None) →
  for_each (index_doc hash include) docs st = Err KeyError.
Proof.
  intros Hinc. revert st.
  induction docs as [|d docs IH]; intros st Hdocs (m & Hin & Hm).
  { by apply elem_of_nil in Hin. }
  destruct (Hdocs d) as (md & -> & Hid); [by left|].
  pose proof (index_doc_well_formed hash include st md Hinc Hid) as Hd.
  cbn [for_each].
  destruct (dict_get md "_id") as [x|] eqn:Hx.
  - destruct Hd as [st' ->]. cbn [rbind]. apply IH.
    + intros d' Hd'. apply Hdocs. by right.
    + apply elem_of_cons in Hin as [[= ->]|Hin]; [congruence|by eauto].
  - by rewrite Hd.
Qed.

Lemma build_included_Ok (hash : list atom → Z) (include : value) :
  include = VNone ∨ (∃ m, include = VDict m) →
  ∃ included,
    (if is_None include then Ok None
     else
       let* bs := _traverse_tree include VNone in
       let* inc := for_each (included_add hash) bs ∅ in
       Ok (Some inc)) = Ok included.
Proof.
  intros [->|[m ->]]; [by eexists|]. simpl is_None. cbv iota.
  destruct (traverse_None_total (VDict m)) as [bs Hbs]. rewrite Hbs.
  cbn [rbind].
  destruct (for_each_included_add_pairs hash bs ∅) as [inc ->].
  { by eapply traverse_dict_pairs. }
  by eexists.
Qed.

(** C8.  Construction either returns an engine holding the three structures
    that [_build_index] returned, and then every document has an ['_id'], or
    raises what [_build_index] raised and returns nothing.  For documents
    that are mappings with scalar ids and an include specification that is
    [None] or a mapping with boolean leaves, it raises [KeyError] whenever
    some document has no ['_id']. *)
Theorem construction_all_or_nothing (py_hash : list atom → Z)
    (docs : list value) (include : value) (hash_ : option (list atom → Z)) :
  match __init__ py_hash (Some docs) include hash_ with
  | Ok e =>
      _hash e = default_hash py_hash hash_ ∧
      _build_index (_hash e) (Some docs) include =
        Ok (ids e, index e, included e) ∧
      ∀ d, d ∈ docs → ∃ a, has_id d a
  | Err x =>
      _build_index (default_hash py_hash hash_) (Some docs) include = Err x
  end ∧
  (include = VNone ∨ (∃ m, include = VDict m) ∧ include_tree include →
   (∀ d, d ∈ docs →
     ∃ m, d = VDict m ∧ ∀ x, dict_get m "_id" = Some x → ∃ a, x = VAtom a) →
   (∃ m, VDict m ∈ docs ∧ dict_get m "_id" = None) →
   __init__ py_hash (Some docs) include hash_ = Err KeyError).
Proof.
  split.
  - destruct (__init__ py_hash (Some docs) include hash_) as [e|x] eqn:He.
    + pose proof (init_spec _ _ _ _ _ He) as (_ & _ & _ & Hdocs & _).
      apply init_Ok in He as ([[i x] inc] & Hbuild & ->). simpl.
      split_and!; [done..|].
      intros d Hd. destruct (Hdocs d Hd) as (a & bs & Ha & _). by exists a.
    + unfold __init__ in He.
      destruct (_build_index (default_hash py_hash hash_) (Some docs) include);
        simpl in He; congruence.
  - intros Hinc Hdocs Hmissing. unfold __init__, _build_index.
    destruct (build_included_Ok (default_hash py_hash hash_) include)
      as [included ->]; [tauto|]. cbn [rbind].
    rewrite index_docs_missing_id; [done|tauto|done..].
Qed.

Lemma construction_all_or_nothing_witness :
  __init__ encode_hash
    (Some [VDict [("_id", VInt 1); ("a", VInt 1)]; VDict [("a", VInt 2)]])
    include_ab None = Err KeyError.
Proof.
  apply (proj2 (construction_all_or_nothing encode_hash
                  [VDict [("_id", VInt 1); ("a", VInt 1)]; VDict [("a", VInt 2)]]
                  include_ab None)).
  - right. split; [by eexists|]. apply include_node.
    intros k v Hin. apply elem_of_cons in Hin as [[= -> ->]|Hin].
    { apply include_leaf. }
    apply elem_of_cons in Hin as [[= -> ->]|Hin].
    { apply include_leaf. }
    by apply elem_of_nil in Hin.
  - intros d Hd. apply elem_of_cons in Hd as [->|Hd].
    { eexists. split; [reflexivity|]. intros x [= <-]. by eexists. }
    apply elem_of_cons in Hd as [->|Hd].
    { eexists. split; [reflexivity|]. intros x [=]. }
    by apply elem_of_nil in Hd.
  - exists [("a", VInt 2)]. split; [|reflexivity].
    apply elem_of_cons. right. apply elem_of_cons. by left.
Defined.

(** ** The directive of [_traverse_tree] *)

(** C9 (amended).  At every node the flattener yields nothing when the
    directive is exactly [False]; with [True] or [None] it yields what it
    yields without a directive, which never raises and, at a mapping,
    descends into every key; a scalar node is yielded under every directive
    other than [False]; at a list every element is traversed under the
    directive of the list; and when node and directive are both mappings,
    exactly the keys whose entry in the directive is truthy ([True], a
    non-empty mapping) are descended into, with that entry as directive,
    so that keys absent from the directive are excluded. *)
Theorem traverse_directive (t : value) :
  _traverse_tree t VFalse = Ok [] ∧
  _traverse_tree t VTrue = _traverse_tree t VNone ∧
  (∃ bs, _traverse_tree t VNone = Ok bs) ∧
  (∀ m bs k rest,
     t = VDict m → _traverse_tree t VNone = Ok bs →
     BPair k rest ∈ bs ↔
     ∃ v bs', (k, v) ∈ m ∧ _traverse_tree v VNone = Ok bs' ∧ rest ∈ bs') ∧
  (∀ a inc,
     t = VAtom a → is_False inc = false → _traverse_tree t inc = Ok [BLeaf a]) ∧
  (∀ i l inc,
     t = VList (i :: l) →
     _traverse_tree t inc =
     let* bs := _traverse_tree i inc in
     let* rest := _traverse_tree (VList l) inc in
     Ok (bs ++ rest)) ∧
  (∀ m inc bs k rest,
     t = VDict m → _traverse_tree t (VDict inc) = Ok bs →
     BPair k rest ∈ bs ↔
     ∃ v d bs', (k, v) ∈ m ∧ dict_get inc k = Some d ∧ truthy d = true ∧
                _traverse_tree v d = Ok bs' ∧ rest ∈ bs').
Proof.
  split_and!.
  - apply traverse_False.
  - apply traverse_True.
  - apply traverse_None_total.
  - intros m bs k rest ->. apply traverse_None_elem.
  - intros a inc ->. apply traverse_atom.
  - intros i l inc ->. apply traverse_list_cons.
  - intros m inc bs k rest ->. apply traverse_dict_elem.
Qed.

Lemma traverse_directive_witness :
  BPair "a" (BLeaf (AInt 1)) ∈ [BPair "a" (BLeaf (AInt 1))] ↔
  ∃ v d bs',
    (("a" : string), v) ∈
      [("a", VInt 1); ("b", VInt 2); ("c", VInt 3)] ∧
    dict_get [("a", VTrue); ("b", VDict [])] "a" = Some d ∧
    truthy d = true ∧
    _traverse_tree v d = Ok bs' ∧ BLeaf (AInt 1) ∈ bs'.
Proof.
  apply (proj2 (proj2 (proj2 (proj2 (proj2 (proj2
           (traverse_directive
              (VDict [("a", VInt 1); ("b", VInt 2); ("c", VInt 3)]))))))));
    reflexivity.
Defined.

(** C9 as stated fails for a directive that is neither a boolean, [None]
    nor a mapping: at a mapping node the flattener calls [include.get] on
    it and raises [AttributeError] instead of descending. *)
Lemma traverse_directive_int_raises :
  _traverse_tree (VDict [("a", VInt 1)]) VNone =
    Ok [BPair "a" (BLeaf (AInt 1))] ∧
  _traverse_tree (VDict [("a", VInt 1)]) (VInt 1) = Err AttributeError ∧
  _traverse_tree (VDict [("a", VInt 1)]) (VStr "yes") = Err AttributeError.
Proof. by split_and!. Qed.

(** ** Merging filters *)

Lemma dict_set_fresh (m : list (string * value)) (k : string) (v : value) :
  k ∉ keys m → dict_set m k v = m ++ [(k, v)].
Proof.
  induction m as [|[k' v'] m IH]; simpl; [done|].
  rewrite not_elem_of_cons. intros [Hne Hk].
  rewrite decide_False by done. by rewrite IH.
Qed.

Lemma dict_merge_disjoint (m1 m2 : list (string * value)) :
  NoDup (keys m2) → (∀ k, k ∈ keys m1 → k ∉ keys m2) →
  dict_merge m1 m2 = m1 ++ m2.
Proof.
  revert m1. induction m2 as [|[k v] m2 IH]; intros m1 Hnodup Hdisj.
  { by rewrite app_nil_r. }
  simpl in Hnodup. apply NoDup_cons in Hnodup as [Hk Hnodup].
  unfold dict_merge. cbn [fold_left fst snd].
  rewrite dict_set_fresh.
  2:{ intros Hin. apply (Hdisj k Hin). by left. }
  fold (dict_merge (m1 ++ [(k, v)]) m2). rewrite IH; [|done|].
  { by rewrite <-app_assoc. }
  intros k'. unfold keys. rewrite map_app, elem_of_app. simpl.
  intros [Hin|Heq%list_elem_of_singleton]; [|by subst].
  specialize (Hdisj k' Hin). by apply not_elem_of_cons in Hdisj as [_ ?].
Qed.

Lemma traverse_dict_app (m1 m2 : list (string * value))
    (bs1 bs2 : list branch) :
  _traverse_tree (VDict m1) VNone = Ok bs1 →
  _traverse_tree (VDict m2) VNone = Ok bs2 →
  _traverse_tree (VDict (m1 ++ m2)) VNone = Ok (bs1 ++ bs2).
Proof.
  revert bs1. induction m1 as [|[k v] m1 IH]; intros bs1.
  - rewrite traverse_dict_nil. by intros [= <-].
  - rewrite <-app_comm_cons, !traverse_None_cons. intros H H2.
    apply rbind_Ok in H as (bs & -> & H).
    apply rbind_Ok in H as (rest & Hrest & [= <-]).
    rewrite (IH _ Hrest H2). simpl. by rewrite app_assoc.
Qed.

Lemma valid_filter_app (m1 m2 : list (string * value)) :
  _valid_filter (VDict (m1 ++ m2)) =
  _valid_filter (VDict m1) && _valid_filter (VDict m2).
Proof.
  induction m1 as [|[k v] m1 IH]; [done|].
  rewrite <-app_comm_cons, !valid_filter_dict_cons, IH. by rewrite andb_assoc.
Qed.

Lemma branches_supported_app (hash : list atom → Z) (inc : gmap Z atom)
    (bs1 bs2 : list branch) :
  branches_supported hash inc bs1 = Ok true →
  branches_supported hash inc (bs1 ++ bs2) = branches_supported hash inc bs2.
Proof.
  induction bs1 as [|b bs1 IH]; simpl; [done|].
  destruct (_flatten b) as [f|x]; simpl; [|done].
  by destruct (branch_supported hash inc f).
Qed.

(** When [find] succeeds on a mapping. *)
Lemma find_dict_Ok (e : engine) (F : list (string * value))
    (bs : list branch) (s : gset atom) :
  _traverse_tree (VDict F) VNone = Ok bs →
  outcome (find (VDict F)) e = Ok s ↔
  _valid_filter (VDict F) = true ∧
  match included e with
  | None => True
  | Some inc => branches_supported (_hash e) inc bs = Ok true
  end ∧
  match F with
  | [] => s = ids e
  | _ => ∃ r, find_loop (_hash e) (index e) bs None = Ok r ∧ s = default ∅ r
  end.
Proof.
  intros Hbs.
  rewrite find_outcome, check_filter_outcome, filter_supported_outcome, Hbs.
  cbn [is_None py_len rbind].
  destruct (_valid_filter (VDict F)); cbn [negb];
    [|split; [done|by intros [? _]]].
  assert ((if Nat.eqb (length F) 0 then Ok (ids e)
           else
             let* r := find_loop (_hash e) (index e) bs None in
             Ok (default ∅ r)) = Ok s ↔
          match F with
          | [] => s = ids e
          | _ => ∃ r, find_loop (_hash e) (index e) bs None = Ok r ∧
                      s = default ∅ r
          end) as Hfind.
  { destruct F as [|kv F]; simpl.
    - split; [by intros [= <-]|by intros ->].
    - rewrite rbind_Ok. split.
      + intros (r & Hr & [= <-]). by exists r.
      + intros (r & Hr & ->). by exists r. }
  destruct (included e) as [inc|].
  - destruct (branches_supported (_hash e) inc bs) as [[]|x]; cbn [rbind negb].
    + rewrite Hfind. tauto.
    + split; [done|]. by intros (_ & ? & _).
    + split; [done|]. by intros (_ & ? & _).
  - cbn [rbind negb]. rewrite Hfind. tauto.
Qed.

(** C3 (amended).  For filters [F1] and [F2] with disjoint top-level keys
    on which [find] succeeds, [find] on the merge [{**F1, **F2}] yields the
    intersection of what it yields on [F1] and on [F2], provided that
    neither of them is a non-empty mapping without any branch while the
    other one has a branch. *)
Theorem find_merge_intersection (py_hash : list atom → Z)
    (docs : option (list value)) (include : value)
    (hash_ : option (list atom → Z)) (e : engine)
    (F1 F2 : list (string * value)) (bs1 bs2 : list branch)
    (s1 s2 : gset atom) :
  __init__ py_hash docs include hash_ = Ok e →
  NoDup (keys F2) → (∀ k, k ∈ keys F1 → k ∉ keys F2) →
  _traverse_tree (VDict F1) VNone = Ok bs1 →
  _traverse_tree (VDict F2) VNone = Ok bs2 →
  (F1 ≠ [] → bs1 = [] → bs2 = []) →
  (F2 ≠ [] → bs2 = [] → bs1 = []) →
  outcome (find (VDict F1)) e = Ok s1 →
  outcome (find (VDict F2)) e = Ok s2 →
  outcome (find (VDict (dict_merge F1 F2))) e = Ok (s1 ∩ s2).
Proof.
  intros He Hnodup Hdisj Hbs1 Hbs2 Hno1 Hno2 Hfind1 Hfind2.
  rewrite dict_merge_disjoint by done.
  assert (s1 ⊆ ids e) as Hs1.
  { eapply find_subset; [|done]. intros h. by eapply init_index_subset. }
  assert (s2 ⊆ ids e) as Hs2.
  { eapply find_subset; [|done]. intros h. by eapply init_index_subset. }
  destruct F1 as [|kv1 F1].
  { apply (find_dict_Ok _ _ _ _ Hbs1) in Hfind1 as (_ & _ & ->).
    simpl. rewrite Hfind2. f_equal. set_solver. }
  destruct F2 as [|kv2 F2].
  { apply (find_dict_Ok _ _ _ _ Hbs2) in Hfind2 as (_ & _ & ->).
    rewrite app_nil_r, Hfind1. f_equal. set_solver. }
  apply (find_dict_Ok _ _ _ _ Hbs1) in Hfind1 as (Hv1 & Hsup1 & r1 & Hr1 & ->).
  apply (find_dict_Ok _ _ _ _ Hbs2) in Hfind2 as (Hv2 & Hsup2 & r2 & Hr2 & ->).
  apply (find_dict_Ok _ _ (bs1 ++ bs2)); [by apply traverse_dict_app|].
  split_and!.
  - by rewrite valid_filter_app, Hv1, Hv2.
  - destruct (included e) as [inc|]; [|done].
    by rewrite branches_supported_app.
  - rewrite <-app_comm_cons. rewrite find_loop_app, Hr1. cbn [rbind].
    pose proof (find_loop_None _ _ _ _ Hr1) as Hshape1.
    pose proof (find_loop_None _ _ _ _ Hr2) as Hshape2.
    destruct r1 as [a|].
    + destruct r2 as [s2|].
      * destruct Hshape2 as (b & bs2' & f & -> & Hf & _).
        simpl in Hr2 |- *. rewrite Hf in Hr2 |- *. cbn [rbind] in Hr2 |- *.
        apply find_loop_Some in Hr2 as (s & [= ->] & _ & Hr2).
        exists (Some (a ∩ s)). by rewrite Hr2.
      * subst bs2. rewrite Hno2 in Hshape1 by done.
        by destruct Hshape1 as (? & ? & ? & ? & _).
    + subst bs1. rewrite Hno1 by done. exists None. split; [done|].
      simpl. set_solver.
Qed.

Lemma find_merge_intersection_witness :
  outcome (find (VDict (dict_merge [("a", VInt 1)]
                          [("b", VDict [("c", VInt 2)])])))
    scenario_engine = Ok ({[AInt 1; AInt 2]} ∩ {[AInt 1]}).
Proof.
  apply (find_merge_intersection encode_hash (Some scenario_docs) VNone None
           scenario_engine [("a", VInt 1)] [("b", VDict [("c", VInt 2)])]
           [BPair "a" (BLeaf (AInt 1))]
           [BPair "b" (BPair "c" (BLeaf (AInt 2)))]).
  - vm_compute; reflexivity.
  - apply (bool_decide_unpack _). vm_compute. exact I.
  - intros k Hk.
    apply elem_of_cons in Hk as [->|Hk]; [|by apply elem_of_nil in Hk].
    apply (bool_decide_unpack _). vm_compute. exact I.
  - reflexivity.
  - reflexivity.
  - discriminate.
  - discriminate.
  - vm_compute; reflexivity.
  - vm_compute; reflexivity.
Defined.

(** C3 as stated fails: [{"x": {}}] is a non-empty filter without a branch,
    for which [find] yields nothing, but merged into [{"a": 1}] it adds no
    branch and constrains nothing. *)
Lemma find_merge_not_intersection :
  (∀ k, k ∈ keys [("x", VDict [])] → k ∉ keys [("a", VInt 1)]) ∧
  outcome (find (VDict [("x", VDict [])])) scenario_engine = Ok ∅ ∧
  outcome (find (VDict [("a", VInt 1)])) scenario_engine =
    Ok {[AInt 1; AInt 2]} ∧
  outcome (find (VDict (dict_merge [("x", VDict [])] [("a", VInt 1)])))
    scenario_engine = Ok {[AInt 1; AInt 2]} ∧
  ({[AInt 1; AInt 2]} : gset atom) ≠ ∅ ∩ {[AInt 1; AInt 2]}.
Proof.
  split_and!.
  - intros k [->|Hk%elem_of_nil]%elem_of_cons; [|done].
    by intros [?|?%elem_of_nil]%elem_of_cons.
  - vm_compute; reflexivity.
  - vm_compute; reflexivity.
  - vm_compute; reflexivity.
  - intros H. assert (AInt 1 ∈ (∅ ∩ {[AInt 1; AInt 2]} : gset atom)) as Hin.
    { rewrite <-H. set_solver. }
    set_solver.
Qed.

(** * Further properties of the module *)

(** ** The flattener *)

Lemma traverse_list_app (l1 l2 : list value) (inc : value) :
  _traverse_tree (VList (l1 ++ l2)) inc =
  let* bs1 := _traverse_tree (VList l1) inc in
  let* bs2 := _traverse_tree (VList l2) inc in
  Ok (bs1 ++ bs2).
Proof.
  induction l1 as [|i l1 IH].
  - rewrite traverse_list_nil. simpl app. cbn [rbind].
    by destruct (_traverse_tree (VList l2) inc).
  - rewrite <-app_comm_cons, !traverse_list_cons, IH.
    destruct (_traverse_tree i inc) as [bs|x]; [|done].
    destruct (_traverse_tree (VList l1) inc) as [bs1|x]; [|done].
    destruct (_traverse_tree (VList l2) inc) as [bs2|x]; [|done].
    cbn [rbind]. by rewrite app_assoc.
Qed.

Lemma traverse_list_singleton (v : value) (inc : value) :
  _traverse_tree (VList [v]) inc = _traverse_tree v inc.
Proof.
  rewrite traverse_list_cons, traverse_list_nil.
  destruct (_traverse_tree v inc) as [bs|x]; [|done].
  cbn [rbind]. by rewrite app_nil_r.
Qed.

Lemma traverse_list_atoms (l : list atom) :
  _traverse_tree (VList (VAtom <$> l)) VNone = Ok (BLeaf <$> l).
Proof.
  induction l as [|a l IH]; [done|].
  rewrite fmap_cons, traverse_list_cons, IH. done.
Qed.

(** X2.  Lists are transparent to the flattener: the branches of a list are
    the branches of its elements, in order and under the directive of the
    list, so that [[v]] has the branches of [v]; a list of scalars under a
    key yields one branch per element, all with that key, and the empty
    list none. *)
Theorem list_branches (k : string) (l1 l2 : list value) (v : value)
    (atoms : list atom) (inc : value) :
  _traverse_tree (VList (l1 ++ l2)) inc =
    (let* bs1 := _traverse_tree (VList l1) inc in
     let* bs2 := _traverse_tree (VList l2) inc in
     Ok (bs1 ++ bs2)) ∧
  _traverse_tree (VList [v]) inc = _traverse_tree v inc ∧
  _traverse_tree (VDict [(k, VList (VAtom <$> atoms))]) VNone =
    Ok ((λ a, BPair k (BLeaf a)) <$> atoms).
Proof.
  split_and!.
  - apply traverse_list_app.
  - apply traverse_list_singleton.
  - rewrite (traverse_single k _ (BLeaf <$> atoms)).
    + by rewrite <-list_fmap_compose.
    + apply traverse_list_atoms.
Qed.

(** Whatever the directive, the traversal yields a sublist of what it
    yields without one. *)
Lemma traverse_sublist (t inc : value) (bs bs0 : list branch) :
  _traverse_tree t inc = Ok bs → _traverse_tree t VNone = Ok bs0 →
  bs `sublist_of` bs0.
Proof.
  revert inc bs bs0.
  induction t as [a|l IH|m IH] using value_ind; intros inc bs bs0.
  - simpl. destruct (is_False inc); intros [= <-] [= <-];
      [apply sublist_nil_l|done].
  - revert bs bs0. induction IH as [|i l Hi _ IHl]; intros bs bs0.
    + rewrite !traverse_list_nil. by intros [= <-] [= <-].
    + rewrite !traverse_list_cons. intros H H0.
      apply rbind_Ok in H as (b1 & Hb1 & H).
      apply rbind_Ok in H as (r1 & Hr1 & [= <-]).
      apply rbind_Ok in H0 as (b0 & Hb0 & H0).
      apply rbind_Ok in H0 as (r0 & Hr0 & [= <-]).
      apply sublist_app; [by eapply Hi|by apply IHl].
  - destruct (is_False inc) eqn:Hfalse.
    { destruct inc as [[| [] | |]| |]; try discriminate Hfalse.
      rewrite traverse_False. intros [= <-] _. apply sublist_nil_l. }
    revert bs bs0. induction IH as [|[k v] m Hv _ IHm]; intros bs bs0.
    + rewrite !traverse_dict_nil. by intros [= <-] [= <-].
    + rewrite traverse_None_cons, traverse_dict_cons by done. intros H H0.
      apply rbind_Ok in H0 as (b0 & Hb0 & H0).
      apply rbind_Ok in H0 as (r0 & Hr0 & [= <-]).
      simpl in Hv.
      assert (∀ d, (let* b := _traverse_tree v d in
                    let* rest := _traverse_tree (VDict m) inc in
                    Ok (map (BPair k) b ++ rest)) = Ok bs →
                   bs `sublist_of` map (BPair k) b0 ++ r0) as Hdescend.
      { intros d Hd. apply rbind_Ok in Hd as (b1 & Hb1 & Hd).
        apply rbind_Ok in Hd as (r1 & Hr1 & [= <-]).
        apply sublist_app; [|by apply IHm].
        apply (fmap_sublist (BPair k)). by eapply Hv. }
      destruct (is_None inc || is_True inc); [by eapply Hdescend|].
      apply rbind_Ok in H as (g & Hg & H).
      destruct (negb (truthy g)).
      * apply sublist_inserts_l. by apply IHm.
      * apply rbind_Ok in H as (d & Hd & H). by eapply Hdescend.
Qed.

(** X1.  An include directive only prunes: whenever the traversal under a
    directive succeeds, what it yields is a sublist (same branches, same
    order, some left out) of what the traversal without a directive
    yields, which always succeeds. *)
Theorem directive_only_prunes (t inc : value) (bs : list branch) :
  _traverse_tree t inc = Ok bs →
  ∃ bs0, _traverse_tree t VNone = Ok bs0 ∧ bs `sublist_of` bs0.
Proof.
  intros H. destruct (traverse_None_total t) as [bs0 H0].
  exists bs0. split; [done|]. by eapply traverse_sublist.
Qed.

Lemma directive_only_prunes_witness :
  ∃ bs0,
    _traverse_tree (VDict [("a", VInt 1); ("b", VList [VInt 2; VInt 3])]) VNone
      = Ok bs0 ∧
    [BPair "b" (BLeaf (AInt 2)); BPair "b" (BLeaf (AInt 3))] `sublist_of` bs0.
Proof.
  apply (directive_only_prunes
           (VDict [("a", VInt 1); ("b", VList [VInt 2; VInt 3])])
           (VDict [("b", VTrue)])).
  reflexivity.
Defined.

Lemma flat_inj (b b' : branch) : flat b = flat b' → b = b'.
Proof.
  revert b'. induction b as [a|k b IH]; intros [a'|k' b']; simpl.
  - by intros [= ->].
  - intros [= _ H]. by destruct b'.
  - intros [= _ H]. by destruct b.
  - intros [= -> H]. f_equal. by apply IH.
Qed.

(** X3.  On the branches of a mapping [_flatten] never raises, yields a
    tuple of at least two elements that starts with the key, and loses
    nothing: two such branches with the same tuple are the same branch. *)
Theorem flatten_pair_faithful (k k' : string) (b b' : branch) :
  (∃ f, _flatten (BPair k b) = Ok f ∧ (2 ≤ length f)%nat ∧
        head f = Some (AStr k)) ∧
  (_flatten (BPair k b) = _flatten (BPair k' b') → k = k' ∧ b = b').
Proof.
  split.
  - exists (AStr k :: flat b). pose proof (flat_length b).
    split_and!; [done|simpl; lia|done].
  - rewrite !flatten_pair. intros [= -> H]. split; [done|by apply flat_inj].
Qed.

(** ** The structures built by [_build_index] *)

Lemma for_each_app {A S : Type} (body : S → A → res S) (l1 l2 : list A)
    (s : S) :
  for_each body (l1 ++ l2) s =
  let* s' := for_each body l1 s in for_each body l2 s'.
Proof.
  revert s. induction l1 as [|x l1 IH]; intros s; simpl; [done|].
  destruct (body s x); simpl; [apply IH|done].
Qed.

Lemma build_index_Ok (hash : list atom → Z) (docs : option (list value))
    (include : value)
    (r : gset atom * gmap Z (gset atom) * option (gmap Z atom)) :
  _build_index hash docs include = Ok r ↔
  (if is_None include then Ok None
   else
     let* bs := _traverse_tree include VNone in
     let* inc := for_each (included_add hash) bs ∅ in
     Ok (Some inc)) = Ok r.2 ∧
  for_each (index_doc hash include) (docs_list docs) (∅, ∅) = Ok r.1.
Proof.
  unfold _build_index. rewrite rbind_Ok. destruct r as [[i x] inc]. simpl.
  split.
  - intros (inc' & Hinc & H). apply rbind_Ok in H as ([i' x'] & Hst & [= <- <- <-]).
    split; [done|]. by destruct docs.
  - intros [Hinc Hst]. exists inc. split; [done|].
    apply rbind_Ok. exists (i, x). split; [|done]. by destruct docs.
Qed.

(** No entry of the index is created empty. *)
Lemma index_add_nonempty (hash : list atom → Z) (id : atom)
    (bs : list branch) (index index' : gmap Z (gset atom)) :
  map_Forall (λ _ s, s ≠ ∅) index →
  for_each (index_add hash id) bs index = Ok index' →
  map_Forall (λ _ s, s ≠ ∅) index'.
Proof.
  revert index. induction bs as [|b bs IH]; intros index Hne; simpl.
  - by intros [= <-].
  - intros H. apply rbind_Ok in H as (index1 & H1 & H).
    unfold index_add in H1. apply rbind_Ok in H1 as (f & _ & [= <-]).
    eapply IH; [|exact H].
    apply map_Forall_insert_2; [set_solver|done].
Qed.

Lemma index_docs_nonempty (hash : list atom → Z) (include : value)
    (docs : list value) (st st' : gset atom * gmap Z (gset atom)) :
  map_Forall (λ _ s, s ≠ ∅) st.2 →
  for_each (index_doc hash include) docs st = Ok st' →
  map_Forall (λ _ s, s ≠ ∅) st'.2.
Proof.
  revert st. induction docs as [|d docs IH]; intros st Hne; simpl.
  - by intros [= <-].
  - intros H. apply rbind_Ok in H as (st1 & H1 & H).
    apply (IH st1); [|done].
    apply index_doc_Ok in H1 as (a & bs & _ & _ & _ & Hindex).
    by eapply index_add_nonempty.
Qed.

(** X4.  After construction, an id is in the entry of the index for a hash
    exactly when some document with that id has a branch, among those the
    include specification lets through, whose tuple hashes to it; and no
    entry of the index is empty. *)
Theorem index_exact (py_hash : list atom → Z) (docs : option (list value))
    (include : value) (hash_ : option (list atom → Z)) (e : engine) :
  __init__ py_hash docs include hash_ = Ok e →
  (∀ h x, x ∈ dd_get (index e) h ↔
          ∃ doc a, doc ∈ docs_list docs ∧ has_id doc a ∧ x = set_key a ∧
                   has_hash (default_hash py_hash hash_) include doc h) ∧
  (∀ h s, index e !! h = Some s → s ≠ ∅).
Proof.
  intros He. split.
  - by apply init_spec in He as (_ & _ & Hindex & _).
  - apply init_Ok in He as (r & [_ Hdocs]%build_index_Ok & ->). simpl.
    intros h s Hs.
    eapply (index_docs_nonempty _ _ _ (∅, ∅) r.1 (map_Forall_empty _) Hdocs).
    exact Hs.
Qed.

Lemma index_exact_witness :
  (∀ h x, x ∈ dd_get (index scenario_engine) h ↔
          ∃ doc a, doc ∈ docs_list (Some scenario_docs) ∧ has_id doc a ∧
                   x = set_key a ∧
                   has_hash (default_hash encode_hash None) VNone doc h) ∧
  (∀ h s, index scenario_engine !! h = Some s → s ≠ ∅).
Proof.
  apply (index_exact encode_hash (Some scenario_docs) VNone None).
  vm_compute; reflexivity.
Defined.

(** The ids collected by the loop over the documents. *)
Lemma index_docs_ids (hash : list atom → Z) (include : value)
    (docs : list value) (st st' : gset atom * gmap Z (gset atom)) :
  for_each (index_doc hash include) docs st = Ok st' →
  ∃ l, Forall2 has_id docs l ∧ st'.1 = list_to_set (set_key <$> l) ∪ st.1.
Proof.
  revert st. induction docs as [|d docs IH]; intros st; simpl.
  - intros [= <-]. exists []. split; [constructor|set_solver].
  - intros H. apply rbind_Ok in H as (st1 & H1 & H).
    apply index_doc_Ok in H1 as (a & bs & Ha & _ & Hids & _).
    destruct (IH _ H) as (l & Hl & ->). exists (a :: l).
    split; [by constructor|]. rewrite Hids. set_solver.
Qed.

Lemma size_list_to_set_le (l : list atom) :
  (size (list_to_set l : gset atom) ≤ length l)%nat.
Proof.
  induction l as [|x l IH].
  - by rewrite list_to_set_nil, size_empty.
  - rewrite list_to_set_cons, size_union_alt, size_singleton. simpl length.
    apply le_n_S. etrans; [|exact IH].
    apply subseteq_size. set_solver.
Qed.

(** X5.  [ids] is the set of the ids of the documents, so [__len__] counts
    distinct ids: it never exceeds the number of documents, and equals it
    when the ids are pairwise different. *)
Theorem len_counts_ids (py_hash : list atom → Z) (docs : list value)
    (include : value) (hash_ : option (list atom → Z)) (e : engine) :
  __init__ py_hash (Some docs) include hash_ = Ok e →
  ∃ l n, Forall2 has_id docs l ∧
         ids e = list_to_set (set_key <$> l) ∧
         outcome __len__ e = Ok n ∧
         (n ≤ length docs)%nat ∧
         (NoDup (set_key <$> l) → n = length docs).
Proof.
  intros (r & [_ Hdocs]%build_index_Ok & ->)%init_Ok. simpl in Hdocs.
  apply index_docs_ids in Hdocs as (l & Hl & Hids). simpl in Hids.
  exists l, (size (list_to_set (set_key <$> l) : gset atom)).
  pose proof (Forall2_length _ _ _ Hl) as Hlen.
  assert (r.1.1 = list_to_set (set_key <$> l)) as Hr by set_solver.
  split_and!; [done|done| | |].
  - unfold outcome, __len__, attr. simpl. by rewrite Hr.
  - pose proof (size_list_to_set_le (set_key <$> l)) as Hle.
    rewrite length_fmap in Hle. lia.
  - intros Hnodup. rewrite size_list_to_set by done.
    rewrite length_fmap. lia.
Qed.

Lemma len_counts_ids_witness :
  ∃ l n, Forall2 has_id scenario_docs l ∧
         ids scenario_engine = list_to_set (set_key <$> l) ∧
         outcome __len__ scenario_engine = Ok n ∧
         (n ≤ length scenario_docs)%nat ∧
         (NoDup (set_key <$> l) → n = length scenario_docs).
Proof.
  apply (len_counts_ids encode_hash scenario_docs VNone None).
  vm_compute; reflexivity.
Defined.

(** The table built by the loop over the branches of the include
    specification. *)
Lemma included_add_spec (hash : list atom → Z) (bs : list branch)
    (inc0 inc : gmap Z atom) :
  for_each (included_add hash) bs inc0 = Ok inc →
  (∀ h d, inc !! h = Some d →
          inc0 !! h = Some d ∨
          ∃ b f, b ∈ bs ∧ _flatten b = Ok f ∧
                 h = hash (slice_to_neg f 1) ∧ last f = Some d) ∧
  (∀ h, is_Some (inc0 !! h) → is_Some (inc !! h)) ∧
  (∀ b f, b ∈ bs → _flatten b = Ok f →
          is_Some (inc !! hash (slice_to_neg f 1))).
Proof.
  revert inc0. induction bs as [|b bs IH]; intros inc0; simpl.
  - intros [= <-]. split_and!; [by left|done|by intros ? ? ?%elem_of_nil].
  - intros H. apply rbind_Ok in H as (inc1 & H1 & H).
    unfold included_add in H1. apply rbind_Ok in H1 as (f & Hf & H1).
    apply rbind_Ok in H1 as (d & Hd & [= <-]).
    unfold py_last in Hd. destruct (last f) as [d'|] eqn:Hlast; [|done].
    injection Hd as ->.
    destruct (IH _ H) as (Hfrom & Hkeep & Hall). split_and!.
    + intros h d0 Hh. destruct (Hfrom h d0 Hh) as [H0|(b' & f' & Hb' & ?)].
      * destruct (decide (hash (slice_to_neg f 1) = h)) as [<-|Hne].
        -- rewrite lookup_insert_eq in H0. injection H0 as <-.
           right. exists b, f. by rewrite elem_of_cons; eauto.
        -- rewrite lookup_insert_ne in H0 by done. by left.
      * right. exists b', f'. by rewrite elem_of_cons; eauto.
    + intros h Hh. apply Hkeep.
      destruct (decide (hash (slice_to_neg f 1) = h)) as [<-|Hne].
      * rewrite lookup_insert_eq. by eexists.
      * by rewrite lookup_insert_ne.
    + intros b' f' [->|Hb']%elem_of_cons Hf'; [|by eapply Hall].
      rewrite Hf in Hf'. injection Hf' as <-.
      apply Hkeep. rewrite lookup_insert_eq. by eexists.
Qed.

(** X6.  With an include specification, [included] holds exactly the
    leaves of the specification: every entry is the decision at the end of
    some branch of the specification, stored under the hash of the keys
    that lead to it, and every branch has an entry.  Inner mappings of the
    specification get no entry of their own. *)
Theorem included_records_leaves (py_hash : list atom → Z)
    (docs : option (list value)) (include : value)
    (hash_ : option (list atom → Z)) (e : engine) :
  is_None include = false →
  __init__ py_hash docs include hash_ = Ok e →
  ∃ inc bs,
    included e = Some inc ∧ _traverse_tree include VNone = Ok bs ∧
    (∀ h d, inc !! h = Some d →
            ∃ b f, b ∈ bs ∧ _flatten b = Ok f ∧
                   h = default_hash py_hash hash_ (slice_to_neg f 1) ∧
                   last f = Some d) ∧
    (∀ b f, b ∈ bs → _flatten b = Ok f →
            is_Some (inc !! default_hash py_hash hash_ (slice_to_neg f 1))).
Proof.
  intros Hnone (r & [Hinc _]%build_index_Ok & ->)%init_Ok. simpl.
  rewrite Hnone in Hinc. apply rbind_Ok in Hinc as (bs & Hbs & Hinc).
  apply rbind_Ok in Hinc as (inc & Hfor & Hr). injection Hr as Hr.
  exists inc, bs. split_and!; [done|done| |].
  - intros h d Hh.
    destruct (included_add_spec _ _ _ _ Hfor) as (Hfrom & _ & _).
    destruct (Hfrom h d Hh) as [H0|?]; [|done].
    by rewrite lookup_empty in H0.
  - by destruct (included_add_spec _ _ _ _ Hfor) as (_ & _ & Hall).
Qed.

Lemma included_records_leaves_witness :
  ∃ inc bs,
    included engine_ab = Some inc ∧ _traverse_tree include_ab VNone = Ok bs ∧
    (∀ h d, inc !! h = Some d →
            ∃ b f, b ∈ bs ∧ _flatten b = Ok f ∧
                   h = default_hash encode_hash None (slice_to_neg f 1) ∧
                   last f = Some d) ∧
    (∀ b f, b ∈ bs → _flatten b = Ok f →
            is_Some (inc !! default_hash encode_hash None (slice_to_neg f 1))).
Proof.
  apply (included_records_leaves encode_hash (Some scenario_docs) include_ab
           None engine_ab).
  - reflexivity.
  - vm_compute; reflexivity.
Defined.

(** Whether a document can be indexed does not depend on what was indexed
    before it. *)
Lemma index_add_same_outcome (hash : list atom → Z) (id : atom)
    (bs : list branch) (i1 i2 : gmap Z (gset atom)) :
  same_outcome (for_each (index_add hash id) bs i1)
               (for_each (index_add hash id) bs i2).
Proof.
  revert i1 i2. induction bs as [|b bs IH]; intros i1 i2; simpl; [done|].
  unfold index_add at 1 3. destruct (_flatten b) as [f|x]; simpl; [|done].
  apply IH.
Qed.

Lemma index_doc_same_outcome (hash : list atom → Z) (include : value)
    (st1 st2 : gset atom * gmap Z (gset atom)) (d : value) :
  same_outcome (index_doc hash include st1 d) (index_doc hash include st2 d).
Proof.
  unfold index_doc.
  destruct (py_getitem d "_id") as [x|x]; simpl; [|done].
  destruct (hashable x) as [a|y]; simpl; [|done].
  destruct (_traverse_tree d include) as [bs|y]; simpl; [|done].
  pose proof (index_add_same_outcome hash a bs st1.2 st2.2) as H.
  destruct (for_each (index_add hash a) bs st1.2),
    (for_each (index_add hash a) bs st2.2); done.
Qed.

Lemma index_docs_same_outcome (hash : list atom → Z) (include : value)
    (docs : list value) (st1 st2 : gset atom * gmap Z (gset atom)) :
  same_outcome (for_each (index_doc hash include) docs st1)
               (for_each (index_doc hash include) docs st2).
Proof.
  revert st1 st2. induction docs as [|d docs IH]; intros st1 st2; simpl;
    [done|].
  pose proof (index_doc_same_outcome hash include st1 st2 d) as H.
  destruct (index_doc hash include st1 d),
    (index_doc hash include st2 d); simpl; first [done|apply IH].
Qed.

Lemma init_concat_Ok (py_hash : list atom → Z) (d1 d2 : list value)
    (include : value) (hash_ : option (list atom → Z)) (e1 e2 : engine) :
  __init__ py_hash (Some d1) include hash_ = Ok e1 →
  __init__ py_hash (Some d2) include hash_ = Ok e2 →
  ∃ e, __init__ py_hash (Some (d1 ++ d2)) include hash_ = Ok e ∧
       included e = included e1.
Proof.
  intros (r1 & [Hinc1 Hd1]%build_index_Ok & ->)%init_Ok.
  intros (r2 & [Hinc2 Hd2]%build_index_Ok & ->)%init_Ok.
  simpl in Hd1, Hd2.
  pose proof (index_docs_same_outcome (default_hash py_hash hash_) include d2
                (∅, ∅) r1.1) as Hsame.
  rewrite Hd2 in Hsame.
  destruct (for_each (index_doc (default_hash py_hash hash_) include) d2 r1.1)
    as [st|x] eqn:Hst; [|done].
  exists (Engine (default_hash py_hash hash_) st.1 st.2 r1.2). split; [|done].
  unfold __init__.
  assert (_build_index (default_hash py_hash hash_) (Some (d1 ++ d2)) include
          = Ok (st, r1.2)) as ->; [|done].
  apply build_index_Ok. split; [done|]. simpl.
  by rewrite for_each_app, Hd1.
Qed.

(** X7.  Indexing the concatenation of two lists of documents, each of
    which can be indexed, succeeds, and gives the union of the two sets of
    ids and, for every hash, the union of the two entries; the table
    [included] is the same. *)
Theorem index_of_concatenation (py_hash : list atom → Z) (d1 d2 : list value)
    (include : value) (hash_ : option (list atom → Z)) (e1 e2 : engine) :
  __init__ py_hash (Some d1) include hash_ = Ok e1 →
  __init__ py_hash (Some d2) include hash_ = Ok e2 →
  ∃ e, __init__ py_hash (Some (d1 ++ d2)) include hash_ = Ok e ∧
       ids e = ids e1 ∪ ids e2 ∧
       (∀ h, dd_get (index e) h = dd_get (index e1) h ∪ dd_get (index e2) h) ∧
       included e = included e1.
Proof.
  intros H1 H2. destruct (init_concat_Ok _ _ _ _ _ _ _ H1 H2) as (e & He & Hinc).
  exists e. split_and!; [done| | |done].
  - apply init_spec in H1 as (_ & Hids1 & _).
    apply init_spec in H2 as (_ & Hids2 & _).
    apply init_spec in He as (_ & Hids & _).
    apply set_eq. intros x. rewrite elem_of_union, Hids, Hids1, Hids2.
    simpl. setoid_rewrite elem_of_app. naive_solver.
  - intros h.
    apply init_spec in H1 as (_ & _ & Hindex1 & _).
    apply init_spec in H2 as (_ & _ & Hindex2 & _).
    apply init_spec in He as (_ & _ & Hindex & _).
    apply set_eq. intros x. rewrite elem_of_union, Hindex, Hindex1, Hindex2.
    simpl. setoid_rewrite elem_of_app. naive_solver.
Qed.

Lemma index_of_concatenation_witness :
  ∃ e, __init__ encode_hash (Some (scenario_docs ++ scenario_docs)) VNone None
       = Ok e ∧
       ids e = ids scenario_engine ∪ ids scenario_engine ∧
       (∀ h, dd_get (index e) h =
             dd_get (index scenario_engine) h ∪
             dd_get (index scenario_engine) h) ∧
       included e = included scenario_engine.
Proof.
  apply (index_of_concatenation encode_hash scenario_docs scenario_docs VNone
           None); vm_compute; reflexivity.
Defined.

(** X8.  Documents are indexed in order and the first one that cannot be
    indexed decides: if the documents before [d] can be indexed and [d]
    alone makes construction raise [x], then construction raises [x]
    whatever follows [d]. *)
Theorem first_failure_decides (py_hash : list atom → Z)
    (pre post : list value) (d : value) (include : value)
    (hash_ : option (list atom → Z)) (e0 : engine) (x : exn) :
  __init__ py_hash (Some pre) include hash_ = Ok e0 →
  __init__ py_hash (Some [d]) include hash_ = Err x →
  __init__ py_hash (Some (pre ++ d :: post)) include hash_ = Err x.
Proof.
  intros (r & [Hinc Hpre]%build_index_Ok & ->)%init_Ok Hd.
  simpl in Hpre. unfold __init__, _build_index in Hd |- *.
  rewrite Hinc in Hd |- *. cbn [rbind] in Hd |- *.
  rewrite for_each_app, Hpre. cbn [rbind for_each] in Hd |- *.
  pose proof (index_doc_same_outcome (default_hash py_hash hash_) include
                (∅, ∅) r.1 d) as Hsame.
  destruct (index_doc (default_hash py_hash hash_) include (∅, ∅) d)
    as [st|y]; [done|].
  destruct (index_doc (default_hash py_hash hash_) include r.1 d)
    as [st|z]; [done|].
  simpl in Hsame, Hd |- *. congruence.
Qed.

Lemma first_failure_decides_witness :
  __init__ encode_hash
    (Some (scenario_docs ++ VDict [("_id", VList [])] :: [VDict []]))
    VNone None = Err TypeError.
Proof.
  apply (first_failure_decides encode_hash scenario_docs [VDict []]
           (VDict [("_id", VList [])]) VNone None scenario_engine);
    vm_compute; reflexivity.
Defined.

(** ** Queries *)

(** [find] and [check_filter] on a mapping, in terms of its branches. *)
Lemma check_filter_dict_outcome (e : engine) (F : list (string * value))
    (bs : list branch) :
  _traverse_tree (VDict F) VNone = Ok bs →
  outcome (check_filter (VDict F)) e =
  if negb (_valid_filter (VDict F)) then Err ValueError
  else
    let* supported :=
      match included e with
      | None => Ok true
      | Some inc => branches_supported (_hash e) inc bs
      end in
    if negb supported then Err RuntimeError else Ok VNone.
Proof.
  intros Hbs. rewrite check_filter_outcome, filter_supported_outcome, Hbs.
  cbn [is_None rbind]. by destruct (included e).
Qed.

Lemma find_dict_outcome (e : engine) (F : list (string * value))
    (bs : list branch) :
  _traverse_tree (VDict F) VNone = Ok bs →
  outcome (find (VDict F)) e =
  let* _ := outcome (check_filter (VDict F)) e in
  if Nat.eqb (length F) 0 then Ok (ids e)
  else
    let* r := find_loop (_hash e) (index e) bs None in
    Ok (default ∅ r).
Proof. intros Hbs. by rewrite find_outcome, Hbs. Qed.

Lemma branches_supported_total (hash : list atom → Z) (inc : gmap Z atom)
    (F : list (string * value)) (bs : list branch) :
  _traverse_tree (VDict F) VNone = Ok bs →
  ∃ r, branches_supported hash inc bs = Ok r.
Proof.
  intros Hbs%traverse_dict_pairs.
  destruct (branches_supported_pairs hash inc bs Hbs) as (r & Hr & _).
  by exists r.
Qed.

(** X11.  On a mapping, [find] fails exactly when [check_filter] fails and
    with the same exception, which is [ValueError] or [RuntimeError];
    when [check_filter] passes, [find] yields a set. *)
Theorem find_fails_as_check_filter (e : engine) (F : list (string * value)) :
  match outcome (check_filter (VDict F)) e with
  | Ok v => v = VNone ∧ ∃ s, outcome (find (VDict F)) e = Ok s
  | Err x =>
      (x = ValueError ∨ x = RuntimeError) ∧
      outcome (find (VDict F)) e = Err x
  end.
Proof.
  destruct (traverse_None_total (VDict F)) as [bs Hbs].
  rewrite (find_dict_outcome e F bs Hbs).
  rewrite (check_filter_dict_outcome e F bs Hbs).
  destruct (_valid_filter (VDict F)); cbn [negb]; [|by eauto].
  assert (∃ r, match included e with
               | None => Ok true
               | Some inc => branches_supported (_hash e) inc bs
               end = Ok r) as [r ->].
  { destruct (included e) as [inc|]; [|by eauto].
    by eapply branches_supported_total. }
  cbn [rbind]. destruct r; cbn [negb rbind]; [|by eauto].
  split; [done|].
  destruct (Nat.eqb (length F) 0); [by eauto|].
  destruct (find_loop_pairs (_hash e) (index e) bs None) as [r ->];
    [by eapply traverse_dict_pairs|by eauto].
Qed.

(** X10.  Without an include specification [check_filter] accepts a
    mapping exactly when no list is among its values at any depth, and
    raises [ValueError] exactly when one is; it never raises
    [RuntimeError]. *)
Theorem check_filter_without_include (e : engine)
    (F : list (string * value)) :
  included e = None →
  (outcome (check_filter (VDict F)) e = Ok VNone ↔ ¬ has_list_value F) ∧
  (outcome (check_filter (VDict F)) e = Err ValueError ↔ has_list_value F) ∧
  outcome (check_filter (VDict F)) e ≠ Err RuntimeError.
Proof.
  intros Hinc. destruct (traverse_None_total (VDict F)) as [bs Hbs].
  rewrite (check_filter_dict_outcome e F bs Hbs), Hinc. cbn [rbind negb].
  rewrite <-invalid_filter_iff.
  destruct (_valid_filter (VDict F)); cbn [negb]; split_and!; done.
Qed.

Lemma check_filter_without_include_witness :
  (outcome (check_filter (VDict [("a", VDict [("b", VInt 1)])]))
     scenario_engine = Ok VNone ↔
   ¬ has_list_value [("a", VDict [("b", VInt 1)])]) ∧
  (outcome (check_filter (VDict [("a", VDict [("b", VInt 1)])]))
     scenario_engine = Err ValueError ↔
   has_list_value [("a", VDict [("b", VInt 1)])]) ∧
  outcome (check_filter (VDict [("a", VDict [("b", VInt 1)])]))
    scenario_engine ≠ Err RuntimeError.
Proof.
  apply (check_filter_without_include scenario_engine).
  vm_compute; reflexivity.
Defined.

(** X15.  A non-empty valid filter that flattens to no branch, such as
    [{"k": {}}], passes [check_filter] on every engine and makes [find]
    yield nothing, whereas the empty filter yields every id. *)
Theorem branchless_filter_finds_nothing (e : engine)
    (F : list (string * value)) :
  F ≠ [] → _valid_filter (VDict F) = true →
  _traverse_tree (VDict F) VNone = Ok [] →
  outcome (check_filter (VDict F)) e = Ok VNone ∧
  outcome (find (VDict F)) e = Ok ∅.
Proof.
  intros Hne Hvalid Hbs.
  assert (outcome (check_filter (VDict F)) e = Ok VNone) as Hcheck.
  { rewrite (check_filter_dict_outcome e F [] Hbs), Hvalid. simpl.
    by destruct (included e). }
  split; [done|].
  rewrite (find_dict_outcome e F [] Hbs), Hcheck.
  by destruct F.
Qed.

Lemma branchless_filter_finds_nothing_witness :
  outcome (check_filter (VDict [("k", VDict [])])) engine_ab = Ok VNone ∧
  outcome (find (VDict [("k", VDict [])])) engine_ab = Ok ∅.
Proof.
  apply (branchless_filter_finds_nothing engine_ab [("k", VDict [])]).
  - discriminate.
  - reflexivity.
  - reflexivity.
Defined.

(** Membership in the result of the loop of [find]. *)
Lemma find_loop_Some_elem (hash : list atom → Z) (index : gmap Z (gset atom))
    (bs : list branch) (a : gset atom) (r : option (gset atom)) (x : atom) :
  find_loop hash index bs (Some a) = Ok r →
  x ∈ default ∅ r ↔
  x ∈ a ∧ ∀ b f, b ∈ bs → _flatten b = Ok f → x ∈ dd_get index (hash f).
Proof.
  revert a. induction bs as [|b bs IH]; intros a; simpl.
  - intros [= <-]. simpl. split; [|by intros [? _]].
    intros Hx. split; [done|]. by intros ? ? ?%elem_of_nil.
  - destruct (_flatten b) as [f0|y] eqn:Hf0; simpl; [|done].
    intros H. rewrite (IH _ H), elem_of_intersection. split.
    + intros [[Ha Hm] Hall]. split; [done|].
      intros b' f' [->|Hb']%elem_of_cons Hf'; [|by eapply Hall].
      rewrite Hf0 in Hf'. by injection Hf' as <-.
    + intros [Ha Hall]. split_and!; [done| |].
      * apply (Hall b f0); [by left|done].
      * intros b' f' Hb' Hf'. apply (Hall b' f'); [by right|done].
Qed.

Lemma find_loop_None_elem (hash : list atom → Z) (index : gmap Z (gset atom))
    (bs : list branch) (r : option (gset atom)) (x : atom) :
  find_loop hash index bs None = Ok r →
  x ∈ default ∅ r ↔
  bs ≠ [] ∧ ∀ b f, b ∈ bs → _flatten b = Ok f → x ∈ dd_get index (hash f).
Proof.
  destruct bs as [|b bs]; simpl.
  - intros [= <-]. simpl. split; [set_solver|by intros [? _]].
  - destruct (_flatten b) as [f0|y] eqn:Hf0; simpl; [|done].
    intros H. rewrite (find_loop_Some_elem _ _ _ _ _ _ H). split.
    + intros [Hm Hall]. split; [done|].
      intros b' f' [->|Hb']%elem_of_cons Hf'; [|by eapply Hall].
      rewrite Hf0 in Hf'. by injection Hf' as <-.
    + intros [_ Hall]. split.
      * apply (Hall b f0); [by left|done].
      * intros b' f' Hb' Hf'. apply (Hall b' f'); [by right|done].
Qed.

(** What [find] yields on a non-empty mapping, when it yields. *)
Lemma find_dict_elem (e : engine) (F : list (string * value))
    (bs : list branch) (s : gset atom) (x : atom) :
  F ≠ [] → _traverse_tree (VDict F) VNone = Ok bs →
  outcome (find (VDict F)) e = Ok s →
  x ∈ s ↔
  bs ≠ [] ∧
  ∀ b f, b ∈ bs → _flatten b = Ok f → x ∈ dd_get (index e) (_hash e f).
Proof.
  intros Hne Hbs Hfind.
  apply (find_dict_Ok _ _ _ _ Hbs) in Hfind as (_ & _ & Hs).
  destruct F as [|kv F]; [done|]. destruct Hs as (r & Hr & ->).
  by apply find_loop_None_elem.
Qed.

(** X17.  A single branch of the filter whose hash has no entry in the
    index makes [find] yield nothing, whatever the other branches are. *)
Theorem unindexed_branch_finds_nothing (e : engine)
    (F : list (string * value)) (bs : list branch) (b : branch)
    (f : list atom) (s : gset atom) :
  _traverse_tree (VDict F) VNone = Ok bs →
  b ∈ bs → _flatten b = Ok f → index e !! _hash e f = None →
  outcome (find (VDict F)) e = Ok s →
  s = ∅.
Proof.
  intros Hbs Hb Hf Hnone Hfind.
  assert (F ≠ []) as Hne.
  { intros ->. rewrite traverse_dict_nil in Hbs. injection Hbs as <-.
    by apply elem_of_nil in Hb. }
  apply set_eq. intros x.
  rewrite (find_dict_elem e F bs s x Hne Hbs Hfind). split; [|set_solver].
  intros [_ Hall]. specialize (Hall b f Hb Hf).
  unfold dd_get in Hall. by rewrite Hnone in Hall.
Qed.

Lemma unindexed_branch_finds_nothing_witness :
  get_ok ∅ (outcome (find (VDict [("a", VInt 1); ("b", VDict [("c", VInt 9)])]))
              scenario_engine) = ∅.
Proof.
  apply (unindexed_branch_finds_nothing scenario_engine
           [("a", VInt 1); ("b", VDict [("c", VInt 9)])]
           [BPair "a" (BLeaf (AInt 1)); BPair "b" (BPair "c" (BLeaf (AInt 9)))]
           (BPair "b" (BPair "c" (BLeaf (AInt 9))))
           [AStr "b"; AStr "c"; AInt 9]).
  - reflexivity.
  - apply elem_of_cons. right. apply elem_of_cons. by left.
  - reflexivity.
  - vm_compute; reflexivity.
  - vm_compute; reflexivity.
Defined.

(** X12.  What [find] computes on a non-empty mapping, for any hash
    function: an id is yielded exactly when the filter has a branch and,
    for each of its branches, some document with that id has an indexed
    branch whose tuple has the same hash. *)
Theorem find_matches_hashes (py_hash : list atom → Z)
    (docs : option (list value)) (include : value)
    (hash_ : option (list atom → Z)) (e : engine)
    (F : list (string * value)) (bs : list branch) (s : gset atom) :
  __init__ py_hash docs include hash_ = Ok e →
  F ≠ [] → _traverse_tree (VDict F) VNone = Ok bs →
  outcome (find (VDict F)) e = Ok s →
  ∀ x, x ∈ s ↔
       bs ≠ [] ∧
       ∀ b f, b ∈ bs → _flatten b = Ok f →
         ∃ doc a, doc ∈ docs_list docs ∧ has_id doc a ∧ x = set_key a ∧
                  has_hash (default_hash py_hash hash_) include doc
                    (default_hash py_hash hash_ f).
Proof.
  intros (Hh & _ & Hindex & _)%init_spec Hne Hbs Hfind x.
  rewrite (find_dict_elem e F bs s x Hne Hbs Hfind), Hh.
  by setoid_rewrite Hindex.
Qed.

Lemma find_matches_hashes_witness :
  AInt 1 ∈ ({[AInt 1]} : gset atom) ↔
  [BPair "b" (BPair "c" (BLeaf (AInt 2)))] ≠ [] ∧
  ∀ b f, b ∈ [BPair "b" (BPair "c" (BLeaf (AInt 2)))] →
         _flatten b = Ok f →
    ∃ doc a, doc ∈ docs_list (Some scenario_docs) ∧ has_id doc a ∧
             AInt 1 = set_key a ∧
             has_hash (default_hash encode_hash None) VNone doc
               (default_hash encode_hash None f).
Proof.
  apply (λ H1 H2 H3 H4,
           find_matches_hashes encode_hash (Some scenario_docs) VNone None
             scenario_engine [("b", VDict [("c", VInt 2)])]
             [BPair "b" (BPair "c" (BLeaf (AInt 2)))] {[AInt 1]}
             H1 H2 H3 H4 (AInt 1)).
  - vm_compute; reflexivity.
  - discriminate.
  - reflexivity.
  - vm_compute; reflexivity.
Defined.

(** Under a collision-free hash, a branch of a mapping hashes like a branch
    of a document only if it is one of its branches. *)
Lemma has_hash_inj (hash : list atom → Z) (include doc : value) (a : atom)
    (k : string) (b : branch) :
  (∀ p q, hash p = hash q → p = q) → has_id doc a →
  has_hash hash include doc (hash (AStr k :: flat b)) ↔
  ∃ bsd, _traverse_tree doc include = Ok bsd ∧ BPair k b ∈ bsd.
Proof.
  intros Hinj Hid. split.
  - intros (bsd & b' & f' & Hbsd & Hb' & Hf' & Hh%Hinj). subst f'.
    exists bsd. split; [done|].
    assert (∃ m, doc = VDict m) as [m ->].
    { unfold has_id in Hid. destruct doc; try discriminate Hid. by eexists. }
    pose proof (traverse_dict_pairs _ _ _ Hbsd) as Hpairs.
    rewrite Forall_forall in Hpairs.
    destruct (Hpairs b' Hb') as (k' & b'' & ->).
    rewrite flatten_pair in Hf'. injection Hf' as -> ->%flat_inj. done.
  - intros (bsd & Hbsd & Hb). by exists bsd, (BPair k b), (AStr k :: flat b).
Qed.

(** X13.  Under a collision-free hash, [find] on a non-empty mapping
    yields exactly the ids under which every branch of the filter occurs
    among the indexed branches of a document: equality of whole paths and
    leaves, nothing less. *)
Theorem find_matches_branches (py_hash : list atom → Z)
    (docs : option (list value)) (include : value)
    (hash_ : option (list atom → Z)) (e : engine)
    (F : list (string * value)) (bs : list branch) (s : gset atom) :
  (∀ p q, default_hash py_hash hash_ p = default_hash py_hash hash_ q →
          p = q) →
  __init__ py_hash docs include hash_ = Ok e →
  F ≠ [] → _traverse_tree (VDict F) VNone = Ok bs →
  outcome (find (VDict F)) e = Ok s →
  ∀ x, x ∈ s ↔
       bs ≠ [] ∧
       ∀ b, b ∈ bs →
         ∃ doc a bsd, doc ∈ docs_list docs ∧ has_id doc a ∧ x = set_key a ∧
                      _traverse_tree doc include = Ok bsd ∧ b ∈ bsd.
Proof.
  intros Hinj (Hh & _ & Hindex & _)%init_spec Hne Hbs Hfind x.
  rewrite (find_dict_elem e F bs s x Hne Hbs Hfind), Hh.
  pose proof (traverse_dict_pairs _ _ _ Hbs) as Hpairs.
  rewrite Forall_forall in Hpairs.
  split; intros [Hbs' Hall]; (split; [done|]).
  - intros b Hb. destruct (Hpairs b Hb) as (k & b' & ->).
    pose proof (Hall _ _ Hb (flatten_pair k b')) as Hx.
    apply Hindex in Hx as (doc & a & Hdoc & Hid & -> & Hhash).
    apply (has_hash_inj _ _ _ a) in Hhash as (bsd & Hbsd & Hin); [|done..].
    by exists doc, a, bsd.
  - intros b f Hb Hf. destruct (Hpairs b Hb) as (k & b' & ->).
    rewrite flatten_pair in Hf. injection Hf as <-.
    destruct (Hall _ Hb) as (doc & a & bsd & Hdoc & Hid & -> & Hbsd & Hin).
    apply Hindex. exists doc, a. split_and!; [done..|].
    apply (has_hash_inj _ _ _ a); [done..|]. by exists bsd.
Qed.

Lemma find_matches_branches_witness :
  AInt 1 ∈ ({[AInt 1]} : gset atom) ↔
  [BPair "b" (BPair "c" (BLeaf (AInt 2)))] ≠ [] ∧
  ∀ b, b ∈ [BPair "b" (BPair "c" (BLeaf (AInt 2)))] →
    ∃ doc a bsd, doc ∈ docs_list (Some scenario_docs) ∧ has_id doc a ∧
                 AInt 1 = set_key a ∧
                 _traverse_tree doc VNone = Ok bsd ∧ b ∈ bsd.
Proof.
  apply (λ H0 H1 H2 H3 H4,
           find_matches_branches encode_hash (Some scenario_docs) VNone None
             scenario_engine [("b", VDict [("c", VInt 2)])]
             [BPair "b" (BPair "c" (BLeaf (AInt 2)))] {[AInt 1]}
             H0 H1 H2 H3 H4 (AInt 1)).
  - apply encode_hash_inj.
  - vm_compute; reflexivity.
  - discriminate.
  - reflexivity.
  - vm_compute; reflexivity.
Defined.

(** Reordering the items of a mapping reorders its branches. *)
Lemma traverse_dict_perm (F F' : list (string * value))
    (bs bs' : list branch) :
  F ≡ₚ F' →
  _traverse_tree (VDict F) VNone = Ok bs →
  _traverse_tree (VDict F') VNone = Ok bs' →
  bs ≡ₚ bs'.
Proof.
  intros Hperm. revert bs bs'.
  induction Hperm as [|[k v] F F' _ IH|[k1 v1] [k2 v2] F|F F1 F' _ IH1 _ IH2];
    intros bs bs'.
  - rewrite traverse_dict_nil. by intros [= <-] [= <-].
  - rewrite !traverse_None_cons. intros H H'.
    apply rbind_Ok in H as (bv & Hbv & H).
    apply rbind_Ok in H as (rest & Hrest & [= <-]).
    rewrite Hbv in H'. cbn [rbind] in H'.
    apply rbind_Ok in H' as (rest' & Hrest' & [= <-]).
    f_equiv. by apply IH.
  - rewrite !traverse_None_cons. intros H H'.
    apply rbind_Ok in H as (b2 & Hb2 & H).
    apply rbind_Ok in H as (r & Hr & [= <-]).
    apply rbind_Ok in Hr as (b1 & Hb1 & Hr).
    apply rbind_Ok in Hr as (rest & Hrest & [= <-]).
    rewrite Hb1, Hb2, Hrest in H'. cbn [rbind] in H'. injection H' as <-.
    rewrite !app_assoc. f_equiv. apply Permutation_app_comm.
  - intros H H'. destruct (traverse_None_total (VDict F1)) as [bs1 H1].
    etrans; [by eapply IH1|by eapply IH2].
Qed.

Lemma valid_filter_perm (F F' : list (string * value)) :
  F ≡ₚ F' → _valid_filter (VDict F) = _valid_filter (VDict F').
Proof.
  intros Hperm. apply eq_true_iff_eq. rewrite !valid_filter_dict.
  by setoid_rewrite Hperm.
Qed.

Lemma branches_supported_perm (hash : list atom → Z) (inc : gmap Z atom)
    (bs bs' : list branch) :
  Forall (λ b, ∃ k b', b = BPair k b') bs → bs ≡ₚ bs' →
  branches_supported hash inc bs = branches_supported hash inc bs'.
Proof.
  intros Hpairs Hperm.
  assert (Forall (λ b, ∃ k b', b = BPair k b') bs') as Hpairs'
    by by rewrite <-Hperm.
  destruct (branches_supported_pairs hash inc bs Hpairs) as (r & -> & Hr).
  destruct (branches_supported_pairs hash inc bs' Hpairs') as (r' & -> & Hr').
  f_equal. apply eq_true_iff_eq. rewrite Hr, Hr'. by setoid_rewrite Hperm.
Qed.

Lemma find_loop_perm (hash : list atom → Z) (index : gmap Z (gset atom))
    (bs bs' : list branch) :
  Forall (λ b, ∃ k b', b = BPair k b') bs → bs ≡ₚ bs' →
  (let* r := find_loop hash index bs None in Ok (default ∅ r)) =
  (let* r := find_loop hash index bs' None in Ok (default ∅ r)).
Proof.
  intros Hpairs Hperm.
  assert (Forall (λ b, ∃ k b', b = BPair k b') bs') as Hpairs'
    by by rewrite <-Hperm.
  destruct (find_loop_pairs hash index bs None Hpairs) as [r Hr].
  destruct (find_loop_pairs hash index bs' None Hpairs') as [r' Hr'].
  rewrite Hr, Hr'. cbn [rbind]. f_equal. apply set_eq. intros x.
  rewrite (find_loop_None_elem _ _ _ _ x Hr), (find_loop_None_elem _ _ _ _ x Hr').
  assert (bs ≠ [] ↔ bs' ≠ []) as ->.
  { split; intros Hne ->.
    - by apply Permutation_nil_r in Hperm.
    - by apply Permutation_nil_l in Hperm. }
  by setoid_rewrite Hperm.
Qed.

(** X14.  The order of the keys of a filter does not matter: on two
    mappings with the same items in a different order [find] has the same
    outcome, the same set of ids or the same exception. *)
Theorem find_order_independent (e : engine) (F F' : list (string * value)) :
  F ≡ₚ F' → outcome (find (VDict F)) e = outcome (find (VDict F')) e.
Proof.
  intros Hperm.
  destruct (traverse_None_total (VDict F)) as [bs Hbs].
  destruct (traverse_None_total (VDict F')) as [bs' Hbs'].
  pose proof (traverse_dict_perm _ _ _ _ Hperm Hbs Hbs') as Hbsperm.
  pose proof (traverse_dict_pairs _ _ _ Hbs) as Hpairs.
  rewrite (find_dict_outcome e F bs Hbs), (find_dict_outcome e F' bs' Hbs').
  rewrite (check_filter_dict_outcome e F bs Hbs).
  rewrite (check_filter_dict_outcome e F' bs' Hbs').
  rewrite (valid_filter_perm F F' Hperm), (Permutation_length Hperm).
  rewrite (find_loop_perm (_hash e) (index e) bs bs' Hpairs Hbsperm).
  destruct (included e) as [inc|]; [|done].
  by rewrite (branches_supported_perm (_hash e) inc bs bs' Hpairs Hbsperm).
Qed.

Lemma find_order_independent_witness :
  outcome (find (VDict [("a", VInt 1); ("b", VDict [("c", VInt 2)])]))
    scenario_engine =
  outcome (find (VDict [("b", VDict [("c", VInt 2)]); ("a", VInt 1)]))
    scenario_engine.
Proof.
  apply (find_order_independent scenario_engine).
  apply perm_swap.
Defined.

(** ** Include specifications *)

Lemma branch_supported_empty (hash : list atom → Z) (f : list atom) :
  branch_supported hash ∅ f = false.
Proof.
  apply not_true_iff_false. unfold branch_supported.
  rewrite existsb_exists. intros (i & _ & Hi).
  unfold prefix_supported, included_get in Hi.
  by rewrite lookup_empty in Hi.
Qed.

(** X9.  The empty mapping as include specification restricts to nothing:
    the ids are recorded but no branch is indexed, [included] is the empty
    table, and [find] raises [RuntimeError] for every valid filter with at
    least one branch. *)
Theorem include_nothing (py_hash : list atom → Z) (docs : option (list value))
    (hash_ : option (list atom → Z)) (e : engine) :
  __init__ py_hash docs (VDict []) hash_ = Ok e →
  included e = Some ∅ ∧
  (∀ x, x ∈ ids e ↔
        ∃ doc a, doc ∈ docs_list docs ∧ has_id doc a ∧ x = set_key a) ∧
  (∀ h, dd_get (index e) h = ∅) ∧
  (∀ F b bs, _valid_filter (VDict F) = true →
             _traverse_tree (VDict F) VNone = Ok (b :: bs) →
             outcome (find (VDict F)) e = Err RuntimeError).
Proof.
  intros He.
  assert (included e = Some ∅) as Hinc.
  { apply init_Ok in He as (r & [Hinc _]%build_index_Ok & ->). simpl.
    by injection Hinc as <-. }
  pose proof (init_spec _ _ _ _ _ He) as (_ & Hids & Hindex & _).
  split_and!; [done|done| |].
  - intros h. apply set_eq. intros x. rewrite Hindex.
    split; [|set_solver].
    intros (doc & a & _ & Hid & _ & bsd & b & f & Hbsd & Hb & _).
    assert (∃ m, doc = VDict m) as [m ->].
    { unfold has_id in Hid. destruct doc; try discriminate Hid. by eexists. }
    pose proof (traverse_dict_pairs _ _ _ Hbsd) as Hpairs.
    rewrite Forall_forall in Hpairs. destruct (Hpairs b Hb) as (k & b' & ->).
    apply (traverse_dict_elem m [] bsd k b' Hbsd) in Hb
      as (? & ? & ? & _ & [=] & _).
  - intros F b bs Hvalid Hbs.
    pose proof (traverse_dict_pairs _ _ _ Hbs) as Hpairs.
    apply Forall_cons in Hpairs as [(k & b' & ->) _].
    rewrite (find_dict_outcome e F _ Hbs).
    rewrite (check_filter_dict_outcome e F _ Hbs), Hvalid, Hinc.
    simpl. by rewrite branch_supported_empty.
Qed.

Lemma include_nothing_witness :
  included (get_ok engine_ab
              (__init__ encode_hash (Some scenario_docs) (VDict []) None))
    = Some ∅.
Proof.
  apply (include_nothing encode_hash (Some scenario_docs) None
           (get_ok engine_ab
              (__init__ encode_hash (Some scenario_docs) (VDict []) None))).
  vm_compute; reflexivity.
Defined.

Lemma init_include_doc (py_hash : list atom → Z) (docs : option (list value))
    (hash_ : option (list atom → Z)) (e : engine) :
  __init__ py_hash docs include_doc hash_ = Ok e →
  _hash e = default_hash py_hash hash_ ∧
  included e = Some (included_doc (default_hash py_hash hash_)).
Proof.
  intros (r & [Hinc _]%build_index_Ok & ->)%init_Ok. split; [done|]. simpl.
  by injection Hinc as <-.
Qed.

(** Under a collision-free hash the paths with a truthy entry are
    [("a",)] and [("b", "d")]. *)
Lemma included_doc_truthy (hash : list atom → Z) (p : list atom) :
  (∀ p q, hash p = hash q → p = q) →
  truthy_atom (included_get (included_doc hash) (hash p)) = true ↔
  p = [AStr "a"] ∨ p = [AStr "b"; AStr "d"].
Proof.
  intros Hinj. unfold included_get, included_doc.
  destruct (decide (p = [AStr "b"; AStr "d"])) as [->|Hbd].
  { rewrite lookup_insert_eq. simpl. by split; [right|]. }
  rewrite lookup_insert_ne by (by intros ?%Hinj).
  destruct (decide (p = [AStr "b"; AStr "c"])) as [->|Hbc].
  { rewrite lookup_insert_eq. simpl. split; [done|by intros [?|?]]. }
  rewrite lookup_insert_ne by (by intros ?%Hinj).
  destruct (decide (p = [AStr "a"])) as [->|Ha].
  { rewrite lookup_insert_eq. simpl. by split; [left|]. }
  rewrite lookup_insert_ne by (by intros ?%Hinj).
  rewrite lookup_empty. simpl. split; [done|by intros [?|?]].
Qed.

Lemma supported_doc (hash : list atom → Z) (f : list atom) :
  (∀ p q, hash p = hash q → p = q) → (1 ≤ length f)%nat →
  branch_supported hash (included_doc hash) f = true ↔
  ∃ n, (n ≤ length (slice_to_neg f 1))%nat ∧
       (take n (slice_to_neg f 1) = [AStr "a"] ∨
        take n (slice_to_neg f 1) = [AStr "b"; AStr "d"]).
Proof.
  intros Hinj Hlen. rewrite branch_supported_iff by done.
  by setoid_rewrite (included_doc_truthy hash _ Hinj).
Qed.

Ltac doc_supported n :=
  apply supported_doc; [done|simpl; lia|];
  exists n; split; [simpl; lia|]; simpl; tauto.

Ltac doc_unsupported :=
  apply not_true_iff_false; rewrite supported_doc by (done || (simpl; lia));
  intros (n & Hn & Hp); simpl in Hn;
  do 3 (destruct n as [|n]; [simpl in Hp; by destruct Hp|]);
  lia.

(** X16.  The examples of the docstring of [check_filter], for the include
    specification [{'a': True, 'b': {'c': False, 'd': True}}], scalars [x],
    [y], [z] and a collision-free hash: [{'a': x}], [{'b': {'d': z}}] and
    [{'a': x, 'b': {'d': z}}] are accepted; [{'b': {'c': x}}],
    [{'b': {'e': y}}] and [{'c': z}] raise [RuntimeError]; so does
    [{'a': x, 'b': y}], because the mapping under ['b'] has no entry of its
    own in [included]. *)
Theorem docstring_examples (py_hash : list atom → Z)
    (docs : option (list value)) (hash_ : option (list atom → Z))
    (e : engine) (x y z : atom) :
  (∀ p q, default_hash py_hash hash_ p = default_hash py_hash hash_ q →
          p = q) →
  __init__ py_hash docs include_doc hash_ = Ok e →
  outcome (check_filter (VDict [("a", VAtom x)])) e = Ok VNone ∧
  outcome (check_filter (VDict [("b", VDict [("d", VAtom z)])])) e = Ok VNone ∧
  outcome (check_filter
             (VDict [("a", VAtom x); ("b", VDict [("d", VAtom z)])])) e
    = Ok VNone ∧
  outcome (check_filter (VDict [("b", VDict [("c", VAtom x)])])) e
    = Err RuntimeError ∧
  outcome (check_filter (VDict [("b", VDict [("e", VAtom y)])])) e
    = Err RuntimeError ∧
  outcome (check_filter (VDict [("c", VAtom z)])) e = Err RuntimeError ∧
  outcome (check_filter (VDict [("a", VAtom x); ("b", VAtom y)])) e
    = Err RuntimeError.
Proof.
  intros Hinj [Hh Hinc]%init_include_doc.
  set (H := default_hash py_hash hash_) in *.
  assert (∀ k v, branch_supported H (included_doc H) [AStr "a"; v] = true)
    as Ha by (intros; doc_supported 1%nat).
  assert (∀ v, branch_supported H (included_doc H)
                 [AStr "b"; AStr "d"; v] = true)
    as Hbd by (intros; doc_supported 2%nat).
  assert (∀ v, branch_supported H (included_doc H)
                 [AStr "b"; AStr "c"; v] = false)
    as Hbc by (intros; doc_unsupported).
  assert (∀ v, branch_supported H (included_doc H)
                 [AStr "b"; AStr "e"; v] = false)
    as Hbe by (intros; doc_unsupported).
  assert (∀ v, branch_supported H (included_doc H) [AStr "c"; v] = false)
    as Hc by (intros; doc_unsupported).
  assert (∀ v, branch_supported H (included_doc H) [AStr "b"; v] = false)
    as Hb by (intros; doc_unsupported).
  split_and!;
    rewrite check_filter_outcome, filter_supported_outcome, Hinc, Hh;
    cbn -[branch_supported];
    rewrite ?Ha, ?Hbd, ?Hbc, ?Hbe, ?Hc, ?Hb; done.
Qed.

Lemma docstring_examples_witness :
  outcome (check_filter (VDict [("a", VInt 1)])) engine_doc = Ok VNone ∧
  outcome (check_filter (VDict [("b", VDict [("d", VInt 3)])])) engine_doc
    = Ok VNone ∧
  outcome (check_filter
             (VDict [("a", VInt 1); ("b", VDict [("d", VInt 3)])])) engine_doc
    = Ok VNone ∧
  outcome (check_filter (VDict [("b", VDict [("c", VInt 1)])])) engine_doc
    = Err RuntimeError ∧
  outcome (check_filter (VDict [("b", VDict [("e", VInt 2)])])) engine_doc
    = Err RuntimeError ∧
  outcome (check_filter (VDict [("c", VInt 3)])) engine_doc
    = Err RuntimeError ∧
  outcome (check_filter (VDict [("a", VInt 1); ("b", VInt 2)])) engine_doc
    = Err RuntimeError.
Proof.
  apply (docstring_examples encode_hash (Some scenario_docs) None engine_doc
           (AInt 1) (AInt 2) (AInt 3)).
  - apply encode_hash_inj.
  - vm_compute; reflexivity.
Defined.

Lemma flatten_pair_faithful_witness :
  ("b" : string) = "b" ∧ BPair "c" (BLeaf (AInt 2)) = BPair "c" (BLeaf (AInt 2)).
Proof.
  apply (proj2 (flatten_pair_faithful "b" "b" (BPair "c" (BLeaf (AInt 2)))
                  (BPair "c" (BLeaf (AInt 2))))).
  reflexivity.
Defined.

(** ** More on queries and construction *)

(** X18.  Indexing further documents never removes a match: what [find]
    yields for a filter on an engine is contained in what it yields for
    the same filter on an engine built from the same documents followed by
    others. *)
Theorem more_documents_more_matches (py_hash : list atom → Z)
    (d1 d2 : list value) (include : value) (hash_ : option (list atom → Z))
    (e1 e : engine) (F : list (string * value)) (s1 s : gset atom) :
  __init__ py_hash (Some d1) include hash_ = Ok e1 →
  __init__ py_hash (Some (d1 ++ d2)) include hash_ = Ok e →
  outcome (find (VDict F)) e1 = Ok s1 →
  outcome (find (VDict F)) e = Ok s →
  s1 ⊆ s.
Proof.
  intros (Hh1 & Hids1 & Hindex1 & _)%init_spec.
  intros (Hh & Hids & Hindex & _)%init_spec Hfind1 Hfind.
  destruct (traverse_None_total (VDict F)) as [bs Hbs].
  assert (∀ x, x ∈ ids e1 → x ∈ ids e) as Hsub_ids.
  { intros x. rewrite Hids1, Hids. simpl. setoid_rewrite elem_of_app.
    naive_solver. }
  assert (∀ h x, x ∈ dd_get (index e1) h → x ∈ dd_get (index e) h) as Hsub.
  { intros h x. rewrite Hindex1, Hindex. simpl. setoid_rewrite elem_of_app.
    naive_solver. }
  destruct (decide (F = [])) as [->|Hne].
  - pose proof (proj1 (find_dict_Ok e1 [] bs s1 Hbs) Hfind1) as (_ & _ & Hs1).
    pose proof (proj1 (find_dict_Ok e [] bs s Hbs) Hfind) as (_ & _ & Hs).
    rewrite Hs1, Hs. exact Hsub_ids.
  - intros x.
    rewrite (find_dict_elem e1 F bs s1 x Hne Hbs Hfind1).
    rewrite (find_dict_elem e F bs s x Hne Hbs Hfind).
    rewrite Hh1, Hh. intros [? Hall]. split; [done|].
    intros b f Hb Hf. by apply Hsub, (Hall b f).
Qed.

Lemma more_documents_more_matches_witness :
  ({[AInt 1; AInt 2]} : gset atom) ⊆
  get_ok ∅ (outcome (find (VDict [("a", VInt 1)]))
              (get_ok scenario_engine
                 (__init__ encode_hash
                    (Some (scenario_docs ++
                           [VDict [("_id", VInt 3); ("a", VInt 1)]]))
                    VNone None))).
Proof.
  apply (more_documents_more_matches encode_hash scenario_docs
           [VDict [("_id", VInt 3); ("a", VInt 1)]] VNone None
           scenario_engine
           (get_ok scenario_engine
              (__init__ encode_hash
                 (Some (scenario_docs ++
                        [VDict [("_id", VInt 3); ("a", VInt 1)]]))
                 VNone None))
           [("a", VInt 1)]);
    vm_compute; reflexivity.
Defined.

(** X19.  Filters that are not mappings: on every engine [find] raises
    [ValueError] for a list, and [TypeError] for an integer or a
    boolean. *)
Theorem find_rejects_non_mappings (e : engine) (l : list value) (z : Z)
    (b : bool) :
  outcome (find (VList l)) e = Err ValueError ∧
  outcome (find (VInt z)) e = Err TypeError ∧
  outcome (find (VAtom (ABool b))) e = Err TypeError.
Proof.
  split_and!.
  - by rewrite find_outcome, check_filter_outcome.
  - rewrite find_outcome, check_filter_outcome, filter_supported_outcome.
    simpl. by destruct (included e).
  - rewrite find_outcome, check_filter_outcome, filter_supported_outcome.
    simpl. destruct (included e); [|done]. by destruct b.
Qed.

(** X21.  With no include specification, construction from a single
    document raises [KeyError] when the document is a mapping without
    ['_id'], raises [TypeError] when it is not a mapping or its ['_id'] is
    a list or a mapping, and otherwise succeeds with that id as the only
    member of [ids]. *)
Theorem single_document_construction (py_hash : list atom → Z) (d : value)
    (hash_ : option (list atom → Z)) :
  match d with
  | VDict m =>
      match dict_get m "_id" with
      | None => __init__ py_hash (Some [d]) VNone hash_ = Err KeyError
      | Some (VAtom a) =>
          ∃ e, __init__ py_hash (Some [d]) VNone hash_ = Ok e ∧
               ids e = {[set_key a]}
      | Some _ => __init__ py_hash (Some [d]) VNone hash_ = Err TypeError
      end
  | _ => __init__ py_hash (Some [d]) VNone hash_ = Err TypeError
  end.
Proof.
  destruct d as [a|l|m]; [done|done|].
  unfold __init__, _build_index. cbn [is_None rbind for_each].
  unfold index_doc, py_getitem.
  destruct (dict_get m "_id") as [[a|l|m']|]; [|done..].
  cbn [rbind hashable].
  destruct (traverse_None_total (VDict m)) as [bs Hbs]. rewrite Hbs.
  cbn [rbind].
  destruct (for_each_index_add_pairs (default_hash py_hash hash_) a bs ∅)
    as [index' Hindex']; [by eapply traverse_dict_pairs|].
  cbn [fst snd]. rewrite Hindex'.
  cbn [rbind]. eexists. split; [done|]. simpl. set_solver.
Qed.

(** X20.  Construction succeeds whenever every document is a mapping whose
    ['_id'] is present and a scalar and the include specification is
    [None] or a mapping with boolean leaves. *)
Theorem construction_succeeds (py_hash : list atom → Z) (docs : list value)
    (include : value) (hash_ : option (list atom → Z)) :
  include = VNone ∨ (∃ m, include = VDict m) ∧ include_tree include →
  (∀ d, d ∈ docs → ∃ m a, d = VDict m ∧ dict_get m "_id" = Some (VAtom a)) →
  ∃ e, __init__ py_hash (Some docs) include hash_ = Ok e.
Proof.
  intros Hinc Hdocs. unfold __init__, _build_index.
  destruct (build_included_Ok (default_hash py_hash hash_) include)
    as [included ->]; [tauto|]. cbn [rbind].
  assert (∀ st, ∃ st',
            for_each (index_doc (default_hash py_hash hash_) include) docs st
            = Ok st') as Hfor.
  { induction docs as [|d docs IH]; intros st; [by eexists|].
    destruct (Hdocs d) as (m & a & -> & Hid); [by left|].
    pose proof (index_doc_well_formed (default_hash py_hash hash_) include
                  st m) as Hd.
    rewrite Hid in Hd. destruct Hd as [st1 Hst1]; [tauto| |].
    { intros x [= <-]. by eexists. }
    cbn [for_each]. rewrite Hst1. cbn [rbind]. apply IH.
    intros d' Hd'. apply Hdocs. by right. }
  destruct (Hfor (∅, ∅)) as [st' ->]. by eexists.
Qed.

Lemma construction_succeeds_witness :
  ∃ e, __init__ encode_hash (Some scenario_docs) include_ab None = Ok e.
Proof.
  apply (construction_succeeds encode_hash scenario_docs include_ab None).
  - right. split; [by eexists|]. apply include_node.
    intros k v Hin. apply elem_of_cons in Hin as [[= -> ->]|Hin].
    { apply include_leaf. }
    apply elem_of_cons in Hin as [[= -> ->]|Hin].
    { apply include_leaf. }
    by apply elem_of_nil in Hin.
  - intros d Hd. apply elem_of_cons in Hd as [->|Hd].
    { by eexists _, _. }
    apply elem_of_cons in Hd as [->|Hd].
    { by eexists _, _. }
    by apply elem_of_nil in Hd.
Defined.

(** ** An include specification does not change the answers *)

Lemma flat_path_leaf (b : branch) : flat b = path b ++ [leaf b].
Proof. induction b as [a|k b IH]; simpl; [done|by rewrite IH]. Qed.

Lemma slice_flat (b : branch) : slice_to_neg (flat b) 1 = path b.
Proof.
  unfold slice_to_neg. rewrite flat_path_leaf, length_app. simpl.
  replace (length (path b) + 1 - 1)%nat with (length (path b)) by lia.
  by rewrite take_app_length.
Qed.

Lemma last_flat (b : branch) : last (flat b) = Some (leaf b).
Proof. rewrite flat_path_leaf. apply last_snoc. Qed.

Lemma dict_get_nodup (m : list (string * value)) (k : string) (v : value) :
  NoDup (keys m) → (k, v) ∈ m → dict_get m k = Some v.
Proof.
  induction m as [|[k' v'] m IH]; simpl.
  - by intros _ ?%elem_of_nil.
  - intros [Hk' Hm]%NoDup_cons [[= -> ->]|Hin]%elem_of_cons.
    + by rewrite decide_True.
    + rewrite decide_False; [by apply IH|].
      intros ->. apply Hk'. unfold keys.
      apply list_elem_of_fmap. by exists (k, v).
Qed.

(** A branch of the include specification that ends in [True] covers every
    branch whose keys start with its keys. *)
Lemma include_branch_covers (bi : branch) (inc : value)
    (bsi : list branch) (b : branch) :
  include_dict inc → _traverse_tree inc VNone = Ok bsi → bi ∈ bsi →
  path bi `prefix_of` path b → leaf bi = ABool true →
  covered b inc.
Proof.
  revert inc bsi b. induction bi as [a|k bi IH]; intros inc bsi b Hinc Hbsi Hin.
  - simpl. intros _ ->. destruct Hinc as [bv|m _ _].
    + injection Hbsi as <-. apply list_elem_of_singleton in Hin.
      injection Hin as <-. apply covered_all.
    + apply traverse_dict_pairs in Hbsi. rewrite Forall_forall in Hbsi.
      by destruct (Hbsi _ Hin) as (? & ? & ?).
  - simpl. intros Hprefix Hleaf. destruct Hinc as [bv|m Hnodup Hm].
    + injection Hbsi as <-. by apply list_elem_of_singleton in Hin.
    + apply (traverse_None_elem m bsi k bi Hbsi) in Hin
        as (v & bs' & Hkv & Hv & Hbi).
      destruct b as [a|k' b].
      { simpl in Hprefix. by destruct Hprefix as [? ?]. }
      simpl in Hprefix. destruct Hprefix as [rest Hrest].
      injection Hrest as -> Hrest.
      apply (covered_key k b m v).
      * by apply dict_get_nodup.
      * destruct (Hm k v Hkv) as [bv|m' _ _].
        -- injection Hv as <-. apply list_elem_of_singleton in Hbi.
           subst bi. simpl in Hleaf. by injection Hleaf as ->.
        -- simpl. destruct m'; [|done].
           rewrite traverse_dict_nil in Hv. injection Hv as <-.
           by apply elem_of_nil in Hbi.
      * apply (IH v bs'); [by eapply Hm|done|done|by exists rest|done].
Qed.

(** Under a mapping directive, the value of a key with a truthy entry is
    traversed. *)
Lemma traverse_dict_item_Ok (m inc : list (string * value))
    (bs : list branch) (k : string) (v d : value) :
  _traverse_tree (VDict m) (VDict inc) = Ok bs →
  (k, v) ∈ m → dict_get inc k = Some d → truthy d = true →
  ∃ bs', _traverse_tree v d = Ok bs'.
Proof.
  revert bs. induction m as [|[k0 v0] m IH]; intros bs.
  - by intros _ ?%elem_of_nil.
  - rewrite traverse_dict_dict_cons. intros H Hin Hd Ht.
    apply elem_of_cons in Hin as [[= -> ->]|Hin].
    + rewrite Hd, Ht in H. apply rbind_Ok in H as (bs' & Hbs' & _).
      by exists bs'.
    + destruct (dict_get inc k0) as [d0|]; [|by eapply IH].
      destruct (truthy d0); [|by eapply IH].
      apply rbind_Ok in H as (? & _ & H).
      apply rbind_Ok in H as (rest & Hrest & _). by eapply IH.
Qed.

(** A branch the directive covers survives the pruning. *)
Lemma covered_traverse (t inc : value) (b : branch) (bs0 bs : list branch) :
  covered b inc →
  _traverse_tree t VNone = Ok bs0 → b ∈ bs0 →
  _traverse_tree t inc = Ok bs → b ∈ bs.
Proof.
  revert inc b bs0 bs.
  induction t as [a|l IH|m IH] using value_ind; intros inc b bs0 bs Hcov.
  - intros [= <-] ->%list_elem_of_singleton.
    inversion Hcov; subst. intros [= <-]. by left.
  - revert bs0 bs. induction IH as [|i l Hi _ IHl]; intros bs0 bs.
    + rewrite traverse_list_nil. by intros [= <-] ?%elem_of_nil.
    + rewrite !traverse_list_cons. intros H0 Hb H.
      apply rbind_Ok in H0 as (b0 & Hb0 & H0).
      apply rbind_Ok in H0 as (r0 & Hr0 & [= <-]).
      apply rbind_Ok in H as (b1 & Hb1 & H).
      apply rbind_Ok in H as (r1 & Hr1 & [= <-]).
      apply elem_of_app in Hb as [Hb|Hb]; apply elem_of_app.
      * left. by eapply Hi.
      * right. by eapply IHl.
  - intros H0 Hb H. inversion Hcov as [b'|k b' mi d Hd Ht Hcov']; subst.
    + rewrite traverse_True, H0 in H. by injection H as <-.
    + apply (traverse_None_elem m bs0 k b' H0) in Hb
        as (v & bs' & Hkv & Hv & Hb').
      destruct (traverse_dict_item_Ok m mi bs k v d H Hkv Hd Ht)
        as [bs'' Hbs''].
      apply (traverse_dict_elem m mi bs k b' H).
      exists v, d, bs''. split_and!; [done..|].
      rewrite Forall_forall in IH.
      by apply (IH (k, v) Hkv d b' bs' bs'' Hcov' Hv Hb' Hbs'').
Qed.

(** The branches of an include specification end in booleans. *)
Lemma include_branch_leaf (bi : branch) (inc : value) (bsi : list branch) :
  include_dict inc → _traverse_tree inc VNone = Ok bsi → bi ∈ bsi →
  ∃ bv, leaf bi = ABool bv.
Proof.
  revert inc bsi. induction bi as [a|k bi IH]; intros inc bsi Hinc Hbsi Hbi.
  - destruct Hinc as [bv|m _ _].
    + injection Hbsi as <-. apply list_elem_of_singleton in Hbi.
      injection Hbi as ->. by exists bv.
    + apply traverse_dict_pairs in Hbsi. rewrite Forall_forall in Hbsi.
      by destruct (Hbsi _ Hbi) as (? & ? & ?).
  - destruct Hinc as [bv|m _ Hm].
    + injection Hbsi as <-. by apply list_elem_of_singleton in Hbi.
    + apply (traverse_None_elem m bsi k bi Hbsi) in Hbi
        as (v & bs' & Hkv & Hv & Hbi).
      simpl. by apply (IH v bs' (Hm k v Hkv)).
Qed.

(** A supported branch is covered by the include specification. *)
Lemma supported_covered (hash : list atom → Z) (mi : list (string * value))
    (bsi : list branch) (inc : gmap Z atom) (k : string) (b : branch) :
  (∀ p q, hash p = hash q → p = q) → include_dict (VDict mi) →
  _traverse_tree (VDict mi) VNone = Ok bsi →
  for_each (included_add hash) bsi ∅ = Ok inc →
  branch_supported hash inc (AStr k :: flat b) = true →
  covered (BPair k b) (VDict mi).
Proof.
  intros Hinj Hinc Hbsi Hfor Hsup.
  apply branch_supported_iff in Hsup as (n & Hn & Ht); [|simpl; lia].
  unfold included_get in Ht.
  destruct (inc !! hash (take n (slice_to_neg (AStr k :: flat b) 1)))
    as [d|] eqn:Hlook; [|done]. simpl in Ht.
  destruct (included_add_spec _ _ _ _ Hfor) as (Hfrom & _ & _).
  destruct (Hfrom _ _ Hlook) as [H0|(bi & fi & Hbi & Hfi & Hh%Hinj & Hlast)].
  { by rewrite lookup_empty in H0. }
  pose proof (traverse_dict_pairs _ _ _ Hbsi) as Hpairs.
  rewrite Forall_forall in Hpairs. destruct (Hpairs bi Hbi) as (ki & bi' & ->).
  rewrite flatten_pair in Hfi. injection Hfi as <-.
  change (AStr ki :: flat bi') with (flat (BPair ki bi')) in Hh, Hlast.
  change (AStr k :: flat b) with (flat (BPair k b)) in Hh.
  rewrite !slice_flat in Hh. rewrite last_flat in Hlast.
  injection Hlast as Hleaf.
  apply (include_branch_covers (BPair ki bi') (VDict mi) bsi); [done..| |].
  - rewrite <-Hh. apply prefix_take.
  - destruct (include_branch_leaf _ _ _ Hinc Hbsi Hbi) as [bv Hbv].
    simpl in Hbv |- *. rewrite Hbv in Hleaf |- *. subst d. simpl in Ht.
    by subst bv.
Qed.

(** The entry of a covered branch is the same with and without the include
    specification. *)
Lemma covered_entry (py_hash : list atom → Z) (docs : option (list value))
    (mi : list (string * value)) (hash_ : option (list atom → Z))
    (e e0 : engine) (k : string) (b : branch) (x : atom) :
  (∀ p q, default_hash py_hash hash_ p = default_hash py_hash hash_ q →
          p = q) →
  __init__ py_hash docs (VDict mi) hash_ = Ok e →
  __init__ py_hash docs VNone hash_ = Ok e0 →
  covered (BPair k b) (VDict mi) →
  x ∈ dd_get (index e) (_hash e (AStr k :: flat b)) ↔
  x ∈ dd_get (index e0) (_hash e0 (AStr k :: flat b)).
Proof.
  intros Hinj (Hh & _ & Hindex & Hdocs & _)%init_spec.
  intros (Hh0 & _ & Hindex0 & _)%init_spec Hcov.
  rewrite Hh, Hh0, Hindex, Hindex0.
  split; intros (doc & a & Hdoc & Hid & -> & Hhash); exists doc, a;
    (split_and!; [done..|]);
    apply (has_hash_inj _ _ _ a _ _ Hinj Hid) in Hhash as (bsd & Hbsd & Hin);
    apply (has_hash_inj _ _ _ a _ _ Hinj Hid).
  - destruct (traverse_None_total doc) as [bsd0 Hbsd0]. exists bsd0.
    split; [done|]. eapply elem_of_sublist; [done|].
    by eapply traverse_sublist.
  - destruct (Hdocs doc Hdoc) as (? & bsd1 & _ & Hbsd1). exists bsd1.
    split; [done|]. by eapply covered_traverse.
Qed.

(** X22.  An include specification restricts which filters are supported,
    not what they find: under a collision-free hash and an include
    specification with boolean leaves, whatever [find] yields for a filter
    is what it yields on the engine built from the same documents without
    an include specification. *)
Theorem include_keeps_answers (py_hash : list atom → Z)
    (docs : option (list value)) (mi : list (string * value))
    (hash_ : option (list atom → Z)) (e e0 : engine)
    (F : list (string * value)) (s : gset atom) :
  (∀ p q, default_hash py_hash hash_ p = default_hash py_hash hash_ q →
          p = q) →
  include_dict (VDict mi) →
  __init__ py_hash docs (VDict mi) hash_ = Ok e →
  __init__ py_hash docs VNone hash_ = Ok e0 →
  outcome (find (VDict F)) e = Ok s →
  outcome (find (VDict F)) e0 = Ok s.
Proof.
  intros Hinj Hdict He He0 Hfind.
  destruct (traverse_None_total (VDict F)) as [bs Hbs].
  pose proof (traverse_dict_pairs _ _ _ Hbs) as Hpairs.
  pose proof (init_spec _ _ _ _ _ He) as (Hh & Hids & _).
  pose proof (init_spec _ _ _ _ _ He0) as (_ & Hids0 & _ & _ & Hnone & _).
  pose proof (init_Ok _ _ _ _ _ He) as (r & [Hinc _]%build_index_Ok & Her).
  cbn [is_None] in Hinc. apply rbind_Ok in Hinc as (bsi & Hbsi & Hinc).
  apply rbind_Ok in Hinc as (inc & Hfor & Hr2).
  assert (included e = Some inc) as Hincluded.
  { rewrite Her. simpl. by injection Hr2 as <-. }
  pose proof (proj1 (find_dict_Ok e F bs s Hbs) Hfind) as (Hvalid & Hsup & Hs).
  apply (find_dict_Ok e0 F bs s Hbs). rewrite (Hnone eq_refl).
  split_and!; [done..|].
  destruct F as [|kv F].
  { rewrite Hs. apply set_eq. intros x. by rewrite Hids, Hids0. }
  destruct Hs as (r1 & Hr1 & ->).
  destruct (find_loop_pairs (_hash e0) (index e0) bs None Hpairs) as [r0 Hr0].
  exists r0. split; [done|]. apply set_eq. intros x.
  rewrite (find_loop_None_elem _ _ _ _ x Hr1), (find_loop_None_elem _ _ _ _ x Hr0).
  rewrite Hincluded in Hsup.
  destruct (branches_supported_pairs (_hash e) inc bs Hpairs)
    as (rs & Hrs & Hall).
  rewrite Hsup in Hrs. injection Hrs as <-.
  pose proof (proj1 Hall eq_refl) as Hsupported.
  rewrite Forall_forall in Hpairs.
  assert (∀ b f, b ∈ bs → _flatten b = Ok f →
                 x ∈ dd_get (index e) (_hash e f) ↔
                 x ∈ dd_get (index e0) (_hash e0 f)) as Hentry.
  { intros b f Hb Hf. destruct (Hpairs b Hb) as (k & b' & ->).
    rewrite flatten_pair in Hf. injection Hf as <-.
    apply (covered_entry py_hash docs mi hash_); [done..|].
    destruct (Hsupported _ Hb) as (f & [= <-] & Hf).
    rewrite Hh in Hf.
    by apply (supported_covered (default_hash py_hash hash_) mi bsi inc). }
  split; intros [Hne Hx]; (split; [done|]); intros b f Hb Hf;
    apply (Hentry b f Hb Hf); by apply (Hx b f).
Qed.

Lemma include_keeps_answers_witness :
  outcome (find (VDict [("a", VInt 1)])) scenario_engine
  = Ok {[AInt 1; AInt 2]}.
Proof.
  apply (include_keeps_answers encode_hash (Some scenario_docs)
           [("a", VTrue); ("b", VFalse)] None engine_ab scenario_engine).
  - apply encode_hash_inj.
  - apply include_dict_node.
    + apply (bool_decide_unpack _). vm_compute. exact I.
    + intros k v Hin. apply elem_of_cons in Hin as [[= -> ->]|Hin].
      { apply include_dict_leaf. }
      apply elem_of_cons in Hin as [[= -> ->]|Hin].
      { apply include_dict_leaf. }
      by apply elem_of_nil in Hin.
  - vm_compute; reflexivity.
  - vm_compute; reflexivity.
  - vm_compute; reflexivity.
Defined.
